(** * video_compressor: the job manager of the main process

    A shallow embedding of [JobManager] (packages/main/src/jobs/JobManager.ts,
    found in this tree as packages/main/src/types.ts, lines 386-896) together
    with the preset data it consumes, and the properties of the
    scheduling and supervision engine checked against it.

    Conventions of the embedding.
    - JavaScript strings are [string]; the regular-expression matcher works
      on the list of their characters.  Characters are 8-bit: code units
      above 255 are outside the model.
    - JavaScript numbers that hold counts, sizes, timestamps and preset
      parameters are [Z]; numbers produced by a division are exact rationals
      [Q] (the rounding of IEEE doubles is not modelled); [NaN] is [None].
    - An optional property is an [option]; [undefined] is [None].
    - The event loop is a transition system: one step per handler run to
      its first [await], and one step per resumed continuation. *)

From Stdlib Require Import ZArith QArith Qround Qminmax String Ascii List DecimalString.
From stdpp Require Import gmap strings list fin_maps.

Open Scope string_scope.
Open Scope list_scope.
Open Scope nat_scope.

(** ** JavaScript primitives used by the manager *)

Module Js.

(** [Number.prototype.toString] on an integer. *)
Definition toString (n : Z) : string := NilZero.string_of_int (Z.to_int n).

(** Truthiness of a number and of a string. *)
Definition truthyN (n : option Z) : bool :=
  match n with Some z => negb (z =? 0)%Z | None => false end.

Definition truthyS (s : option string) : bool :=
  match s with Some "" => false | Some _ => true | None => false end.

Definition truthyB (b : option bool) : bool :=
  match b with Some true => true | _ => false end.

(** The character classes [\d] and [\s] (on 8-bit code units). *)
Definition isDigit (a : ascii) : bool :=
  let n := nat_of_ascii a in (48 <=? n)%nat && (n <=? 57)%nat.

Definition isSpace (a : ascii) : bool :=
  let n := nat_of_ascii a in
  (n =? 9)%nat || (n =? 10)%nat || (n =? 11)%nat || (n =? 12)%nat
  || (n =? 13)%nat || (n =? 32)%nat || (n =? 160)%nat.

Definition digitVal (a : ascii) : Z := Z.of_nat (nat_of_ascii a) - 48.

(** Value of a hexadecimal digit, if it is one. *)
Definition hexVal (a : ascii) : option Z :=
  let n := nat_of_ascii a in
  if isDigit a then Some (digitVal a)
  else if (97 <=? n)%nat && (n <=? 102)%nat then Some (Z.of_nat n - 87)%Z
  else if (65 <=? n)%nat && (n <=? 70)%nat then Some (Z.of_nat n - 55)%Z
  else None.

Definition decVal (a : ascii) : option Z :=
  if isDigit a then Some (digitVal a) else None.

(** Longest prefix of digits, read in the given radix; [None] when the
    prefix is empty. *)
Fixpoint digitsFrom (val : ascii -> option Z) (radix : Z)
         (acc : option Z) (l : list ascii) : option Z :=
  match l with
  | [] => acc
  | a :: l' =>
      match val a with
      | Some d => digitsFrom val radix (Some (default 0%Z acc * radix + d)%Z) l'
      | None => acc
      end
  end.

Fixpoint dropSpaces (l : list ascii) : list ascii :=
  match l with
  | a :: l' => if isSpace a then dropSpaces l' else l
  | [] => []
  end.

(** [parseInt(s)] without a radix: leading white space, an optional
    sign, an optional [0x] prefix, then the longest run of digits.
    [None] is [NaN]. *)
Definition parseInt (s : string) : option Z :=
  let l := dropSpaces (list_ascii_of_string s) in
  let '(sign, l) :=
    match l with
    | "-"%char :: l' => ((-1)%Z, l')
    | "+"%char :: l' => (1%Z, l')
    | _ => (1%Z, l)
    end in
  let r :=
    match l with
    | "0"%char :: "x"%char :: l' => digitsFrom hexVal 16 None l'
    | "0"%char :: "X"%char :: l' => digitsFrom hexVal 16 None l'
    | _ => digitsFrom decVal 10 None l
    end in
  (fun z => (sign * z)%Z) <$> r.

(** [s.replace(c, '')] for a one-character pattern: the first occurrence
    is removed. *)
Fixpoint removeFirst (c : ascii) (s : string) : string :=
  match s with
  | EmptyString => EmptyString
  | String a s' => if Ascii.eqb a c then s' else String a (removeFirst c s')
  end.

(** [s.slice(-n)]: the last [n] characters, the whole string when it is
    shorter. *)
Definition sliceLast (n : nat) (s : string) : string :=
  let l := list_ascii_of_string s in
  string_of_list_ascii (drop (length l - n) l).

(** [Math.round]: to the nearest integer, halves upwards. *)
Definition round (q : Q) : Z := Qfloor (q + (1 # 2)).

(** [s.padStart(2, '0')] on the decimal form of a number. *)
Definition pad2 (s : string) : string :=
  match s with
  | String a EmptyString => String "0" (String a EmptyString)
  | EmptyString => "00"
  | _ => s
  end.

End Js.

(** ** Presets and job configuration (packages/main/src/types.ts) *)

Inductive VideoCodec := libx264 | libx265 | libvpx_vp9.
Inductive SpeedPreset :=
  ultrafast | superfast | veryfast | faster | fast | medium | slow | slower | veryslow.
Inductive Profile := baseline | main | high.
Inductive AudioCodec := aac | mp3 | libopus.

Definition VideoCodec_str (c : VideoCodec) : string :=
  match c with libx264 => "libx264" | libx265 => "libx265" | libvpx_vp9 => "libvpx-vp9" end.

Definition SpeedPreset_str (p : SpeedPreset) : string :=
  match p with
  | ultrafast => "ultrafast" | superfast => "superfast" | veryfast => "veryfast"
  | faster => "faster" | fast => "fast" | medium => "medium"
  | slow => "slow" | slower => "slower" | veryslow => "veryslow"
  end.

Definition Profile_str (p : Profile) : string :=
  match p with baseline => "baseline" | main => "main" | high => "high" end.

Definition AudioCodec_str (c : AudioCodec) : string :=
  match c with aac => "aac" | mp3 => "mp3" | libopus => "libopus" end.

Module Video.
Record t := mk {
  codec : VideoCodec;
  crf : option Z;
  bitrate : option string;
  preset : SpeedPreset;
  profile : option Profile;
  level : option string;
  pixelFormat : string;
  maxWidth : option Z;
  maxHeight : option Z;
  fps : option Z;
  twoPass : bool;
}.
End Video.

Module Audio.
Record t := mk {
  codec : AudioCodec;
  bitrate : string;
  sampleRate : option Z;
  channels : option Z;
}.
End Audio.

Module Preset.
Record t := mk {
  id : string;
  name : string;
  video : option Video.t;
  audio : option Audio.t;
  removeVideo : option bool;
  removeAudio : option bool;
}.
End Preset.

(** A key of an object literal: missing, or bound to a value (which, for
    an optional property, may be [undefined]). *)
Inductive key (A : Type) := absent | bound (v : A).
Arguments absent {A}.
Arguments bound {A} v.

(** [Partial<CompressionPreset>]: every top-level key is optional; a
    [video] or [audio] object, when given, is a whole object of the
    preset's own type. *)
Module Partial.
Record t := mk {
  id : key string;
  name : key string;
  video : key (option Video.t);
  audio : key (option Audio.t);
  removeVideo : key (option bool);
  removeAudio : key (option bool);
}.
End Partial.

Module Config.
Record t := mk {
  inputPath : string;
  outputPath : string;
  preset : Preset.t;
  targetSize : option Z;
  customSettings : option Partial.t;
}.
End Config.

(** ** Argument building *)

(** One key of [{ ...preset, ...customSettings }]: the later object wins
    when it has the key. *)
Definition spreadKey {A} (base : A) (over : key A) : A :=
  match over with absent => base | bound v => v end.

Definition spread (p : Preset.t) (c : Partial.t) : Preset.t :=
  {| Preset.id := spreadKey (Preset.id p) (Partial.id c);
     Preset.name := spreadKey (Preset.name p) (Partial.name c);
     Preset.video := spreadKey (Preset.video p) (Partial.video c);
     Preset.audio := spreadKey (Preset.audio p) (Partial.audio c);
     Preset.removeVideo := spreadKey (Preset.removeVideo p) (Partial.removeVideo c);
     Preset.removeAudio := spreadKey (Preset.removeAudio p) (Partial.removeAudio c) |}.

(** [effectivePreset] of [buildFfmpegArgs]. *)
Definition effectivePreset (config : Config.t) : Preset.t :=
  match Config.customSettings config with
  | Some c => spread (Config.preset config) c
  | None => Config.preset config
  end.

(** [calculateTargetBitrate]: the duration is the constant 60 and the
    input path is not consulted. *)
Definition calculateTargetBitrate
    (targetSizeBytes : Z) (inputPath : string) (preset : Preset.t) : string :=
  let durationSeconds : Q := 60 # 1 in
  let audioBitrate : option Z :=
    match Preset.audio preset with
    | Some a => Js.parseInt (Js.removeFirst "k" (Audio.bitrate a))
    | None => Some 128%Z
    end in
  let targetBitsPerSecond : Q := (inject_Z (targetSizeBytes * 8) / durationSeconds)%Q in
  let videoBitrate : option Q :=
    (fun a => Qmax (300 # 1) (Qmin (8000 # 1) (targetBitsPerSecond - inject_Z a))%Q)
      <$> audioBitrate in
  match videoBitrate with
  | Some v => Js.toString (Js.round v) +:+ "k"
  | None => "NaNk"
  end.

(** The bitrate planned by the specification, in its words:
    [clamp(targetSizeBits / durationSeconds - audioBitrateKbps, MIN_KBPS,
    MAX_KBPS)]. *)
Definition specTargetBitrate
    (targetSizeBits durationSeconds audioBitrateKbps MIN_KBPS MAX_KBPS : Q) : Q :=
  Qmax MIN_KBPS (Qmin MAX_KBPS (targetSizeBits / durationSeconds - audioBitrateKbps)).

Definition buildScaleFilter (maxWidth maxHeight : option Z) : string :=
  if negb (Js.truthyN maxWidth) && negb (Js.truthyN maxHeight) then "scale=-1:-1"
  else if Js.truthyN maxWidth && Js.truthyN maxHeight then
    "scale='min(" +:+ Js.toString (default 0%Z maxWidth) +:+ ",iw)':'min("
      +:+ Js.toString (default 0%Z maxHeight)
      +:+ ",ih)':force_original_aspect_ratio=decrease"
  else if Js.truthyN maxWidth then
    "scale=" +:+ Js.toString (default 0%Z maxWidth) +:+ ":-1"
  else "scale=-1:" +:+ Js.toString (default 0%Z maxHeight).

(** [buildTwoPassArgs]; [None] is the [TypeError] of [preset.video!.codec]
    on a preset without video. [win32] is [process.platform === 'win32']. *)
Definition buildTwoPassArgs (win32 : bool) (config : Config.t) (preset : Preset.t)
    : option (list string) :=
  let targetBitrate :=
    calculateTargetBitrate (default 0%Z (Config.targetSize config))
      (Config.inputPath config) preset in
  match Preset.video preset with
  | Some v =>
      Some (["-i"; Config.inputPath config;
             "-c:v"; VideoCodec_str (Video.codec v);
             "-b:v"; targetBitrate;
             "-pass"; "1";
             "-an";
             "-f"; "mp4"]
            ++ [if win32 then "NUL" else "/dev/null"])
  | None => None
  end.

Definition optArg (flag : string) (v : option string) : list string :=
  match v with Some s => [flag; s] | None => [] end.

Definition videoArgs (p : Preset.t) : list string :=
  match Preset.video p with
  | Some v =>
      if negb (Js.truthyB (Preset.removeVideo p)) then
        ["-c:v"; VideoCodec_str (Video.codec v)]
        ++ optArg "-crf" (Js.toString <$> Video.crf v)
        ++ (if Js.truthyS (Video.bitrate v) then optArg "-b:v" (Video.bitrate v) else [])
        ++ ["-preset"; SpeedPreset_str (Video.preset v)]
        ++ optArg "-profile:v" (Profile_str <$> Video.profile v)
        ++ (if Js.truthyS (Video.level v) then optArg "-level" (Video.level v) else [])
        ++ ["-pix_fmt"; Video.pixelFormat v]
        ++ (if Js.truthyN (Video.maxWidth v) || Js.truthyN (Video.maxHeight v)
            then ["-vf"; buildScaleFilter (Video.maxWidth v) (Video.maxHeight v)]
            else [])
        ++ (if Js.truthyN (Video.fps v) then optArg "-r" (Js.toString <$> Video.fps v) else [])
      else ["-vn"]
  | None => if Js.truthyB (Preset.removeVideo p) then ["-vn"] else []
  end.

Definition audioArgs (p : Preset.t) : list string :=
  match Preset.audio p with
  | Some a =>
      if negb (Js.truthyB (Preset.removeAudio p)) then
        ["-c:a"; AudioCodec_str (Audio.codec a); "-b:a"; Audio.bitrate a]
        ++ (if Js.truthyN (Audio.sampleRate a)
            then optArg "-ar" (Js.toString <$> Audio.sampleRate a) else [])
        ++ (if Js.truthyN (Audio.channels a)
            then optArg "-ac" (Js.toString <$> Audio.channels a) else [])
      else ["-an"]
  | None => if Js.truthyB (Preset.removeAudio p) then ["-an"] else []
  end.

(** [buildFfmpegArgs]. *)
Definition buildFfmpegArgs (win32 : bool) (config : Config.t) : option (list string) :=
  let effective := effectivePreset config in
  if Js.truthyN (Config.targetSize config)
     && default false (Video.twoPass <$> Preset.video effective)
  then buildTwoPassArgs win32 config effective
  else
    Some (["-i"; Config.inputPath config]
          ++ videoArgs effective
          ++ audioArgs effective
          ++ ["-y"; Config.outputPath config]).

(** ** Regular expressions of [parseProgress]

    Each of the five expressions is a literal marker followed by a
    sequence of character classes, repeated or optional.  In all five,
    the class that follows a repetition (past any optional item) is
    disjoint from the repeated class, so giving back a character of a
    repetition can never make the rest succeed: the greedy scan below
    finds a match exactly when the backtracking matcher does, and the same
    one.  None carries the [g] flag, so [String.prototype.match] returns
    the match at the leftmost starting position. *)

Module Regex.

Inductive item :=
| One (p : ascii -> bool)      (* one character of a class *)
| Many (p : ascii -> bool)     (* [p*], greedy *)
| Maybe (p : ascii -> bool).   (* [p?] *)

Definition class (it : item) : ascii -> bool :=
  match it with One p | Many p | Maybe p => p end.

(** A regular expression: the marker, then items, each tagged with the
    number of the capture group it lies in (0 for none). *)
Record t := mk {
  marker : list ascii;
  body : list (nat * item);
}.

Fixpoint span (p : ascii -> bool) (l : list ascii) : list ascii * list ascii :=
  match l with
  | a :: l' => if p a then let '(x, r) := span p l' in (a :: x, r) else ([], l)
  | [] => ([], [])
  end.

Definition consSeg (x : list ascii) (r : list (list ascii) * list ascii) :=
  (x :: r.1, r.2).

(** Matching the items at the head of the input: the characters taken by
    each item, and the input left over. *)
Fixpoint run (its : list item) (l : list ascii)
  : option (list (list ascii) * list ascii) :=
  match its with
  | [] => Some ([], l)
  | One p :: its' =>
      match l with
      | a :: l' => if p a then consSeg [a] <$> run its' l' else None
      | [] => None
      end
  | Many p :: its' =>
      let '(x, r) := span p l in consSeg x <$> run its' r
  | Maybe p :: its' =>
      match l with
      | a :: l' => if p a then consSeg [a] <$> run its' l' else consSeg [] <$> run its' l
      | [] => consSeg [] <$> run its' []
      end
  end.

Fixpoint strip (m l : list ascii) : option (list ascii) :=
  match m with
  | [] => Some l
  | c :: m' =>
      match l with
      | a :: l' => if Ascii.eqb a c then strip m' l' else None
      | [] => None
      end
  end.

(** A match starting at the head of the input. *)
Definition matchAt (re : t) (l : list ascii) :=
  strip (marker re) l ≫= run (body re).*2.

(** The leftmost match. *)
Fixpoint search (re : t) (l : list ascii) :=
  match matchAt re l with
  | Some r => Some r
  | None => match l with [] => None | _ :: l' => search re l' end
  end.

(** Text of capture group [n]. *)
Fixpoint group (n : nat) (tags : list nat) (segs : list (list ascii)) : list ascii :=
  match tags, segs with
  | t :: tags', x :: segs' =>
      if (t =? n)%nat then x ++ group n tags' segs' else group n tags' segs'
  | _, _ => []
  end.

(** [s.match(re)]: the capture groups 1..[k] of the leftmost match. *)
Definition exec (re : t) (k : nat) (s : string) : option (list string) :=
  (fun r => (fun n => string_of_list_ascii (group n (body re).*1 r.1)) <$> seq 1 k)
    <$> search re (list_ascii_of_string s).

(** The items end in one of fixed width, or there are none. *)
Definition fixedEnd (its : list item) : bool :=
  match last its with
  | Some (One _) | None => true
  | _ => false
  end.

(** The characters some item of the sequence accepts. *)
Definition accepts (its : list item) (a : ascii) : bool :=
  existsb (fun it => class it a) its.

(** There is a match, and the leftmost one ends in an item of fixed
    width or before the end of the input: more input cannot extend it. *)
Definition closed (re : t) (s : string) : bool :=
  match search re (list_ascii_of_string s) with
  | Some (_, r) => fixedEnd (body re).*2 || match r with [] => false | _ => true end
  | None => false
  end.

Definition lit (c : ascii) : ascii -> bool := Ascii.eqb c.
Definition digitOrDot (a : ascii) : bool := Js.isDigit a || Ascii.eqb a ".".
Definition kmg (a : ascii) : bool := Ascii.eqb a "k" || Ascii.eqb a "m" || Ascii.eqb a "g".

(** [/time=(\d{2}):(\d{2}):(\d{2}\.\d{2})/] *)
Definition time : t :=
  {| marker := list_ascii_of_string "time=";
     body := [(1, One Js.isDigit); (1, One Js.isDigit); (0, One (lit ":"));
              (2, One Js.isDigit); (2, One Js.isDigit); (0, One (lit ":"));
              (3, One Js.isDigit); (3, One Js.isDigit); (3, One (lit "."));
              (3, One Js.isDigit); (3, One Js.isDigit)]%nat |}.

(** [/speed=\s*([0-9.]+)x/] *)
Definition speed : t :=
  {| marker := list_ascii_of_string "speed=";
     body := [(0, Many Js.isSpace); (1, One digitOrDot); (1, Many digitOrDot);
              (0, One (lit "x"))]%nat |}.

(** [/fps=\s*([0-9.]+)/] *)
Definition fps : t :=
  {| marker := list_ascii_of_string "fps=";
     body := [(0, Many Js.isSpace); (1, One digitOrDot); (1, Many digitOrDot)]%nat |}.

(** [/bitrate=\s*([0-9.]+[kmg]?bits\/s)/] *)
Definition bitrate : t :=
  {| marker := list_ascii_of_string "bitrate=";
     body := [(0, Many Js.isSpace); (1, One digitOrDot); (1, Many digitOrDot);
              (1, Maybe kmg); (1, One (lit "b")); (1, One (lit "i"));
              (1, One (lit "t")); (1, One (lit "s")); (1, One (lit "/"));
              (1, One (lit "s"))]%nat |}.

(** [/size=\s*([0-9]+[kmg]?B)/] *)
Definition size : t :=
  {| marker := list_ascii_of_string "size=";
     body := [(0, Many Js.isSpace); (1, One Js.isDigit); (1, Many Js.isDigit);
              (1, Maybe kmg); (1, One (lit "B"))]%nat |}.

End Regex.

(** ** Progress extraction (the pure part of [parseProgress]) *)

(** [parseFloat] on the text of the seconds group, [\d{2}\.\d{2}]:
    an integer part and a fraction. *)
Definition parseFloat (s : string) : option Q :=
  let '(i, r) := Regex.span Js.isDigit (list_ascii_of_string s) in
  match Js.digitsFrom Js.decVal 10 None i, r with
  | Some n, "."%char :: f =>
      let d := (Regex.span Js.isDigit f).1 in
      Some (inject_Z n + inject_Z (default 0%Z (Js.digitsFrom Js.decVal 10 None d))
                         / inject_Z (10 ^ Z.of_nat (length d)))%Q
  | Some n, _ => Some (inject_Z n)
  | None, _ => None
  end.

(** The five matches of one call. *)
Record Matches := {
  timeMatch : option (list string);
  speedMatch : option (list string);
  fpsMatch : option (list string);
  bitrateMatch : option (list string);
  sizeMatch : option (list string);
}.

Definition matches (stderr : string) : Matches :=
  {| timeMatch := Regex.exec Regex.time 3 stderr;
     speedMatch := Regex.exec Regex.speed 1 stderr;
     fpsMatch := Regex.exec Regex.fps 1 stderr;
     bitrateMatch := Regex.exec Regex.bitrate 1 stderr;
     sizeMatch := Regex.exec Regex.size 1 stderr |}.

(** The buffer holds a progress record: each of the five expressions
    matches, and the match of the frame rate, the only one that ends in a
    repetition, is followed by at least one more character. *)
Definition hasRecord (stderr : string) : bool :=
  Regex.closed Regex.time stderr && Regex.closed Regex.speed stderr
  && Regex.closed Regex.fps stderr && Regex.closed Regex.bitrate stderr
  && Regex.closed Regex.size stderr.

Definition grp (m : list string) (i : nat) : string := default "" (m !! (i - 1)%nat).

(** [currentTime] in seconds; [None] is [NaN]. *)
Definition currentTime (m : list string) : option Q :=
  hours ← Js.parseInt (grp m 1);
  minutes ← Js.parseInt (grp m 2);
  seconds ← parseFloat (grp m 3);
  Some (inject_Z hours * 3600 + inject_Z minutes * 60 + seconds)%Q.

(** The progress computed from a time match, against the fixed
    [estimatedDuration] of 300 seconds. *)
Definition progressOf (m : list string) : option Q :=
  let estimatedDuration : Q := 300 # 1 in
  (fun t => Qmin (100 # 1) ((t / estimatedDuration) * (100 # 1)))%Q <$> currentTime m.

(** [x % m] on numbers: the remainder has the sign of [x]. *)
Definition Qrem (x m : Q) : Q :=
  let q := (x / m)%Q in
  let t := if Qle_bool 0 q then Qfloor q else Qceiling q in
  (x - m * inject_Z t)%Q.

(** [formatDuration]. *)
Definition formatDuration (seconds : Q) : string :=
  let hours := Qfloor (seconds / 3600) in
  let minutes := Qfloor (Qrem seconds 3600 / 60) in
  let secs := Qfloor (Qrem seconds 60) in
  if (0 <? hours)%Z then
    Js.toString hours +:+ ":" +:+ Js.pad2 (Js.toString minutes) +:+ ":"
      +:+ Js.pad2 (Js.toString secs)
  else Js.toString minutes +:+ ":" +:+ Js.pad2 (Js.toString secs).

(** ** Jobs, events and the manager's state *)

Inductive Status := waiting | running | paused | completed | failed | cancelled.

#[global] Instance Status_eq_dec : EqDecision Status.
Proof. solve_decision. Defined.

(** The states of ['completed', 'failed', 'cancelled'].includes(status). *)
Definition terminal (st : Status) : bool :=
  match st with completed | failed | cancelled => true | _ => false end.

(** [ActiveJob]; [process] is the handle of the spawned child. *)
Module Job.
Record t := mk {
  id : string;
  config : Config.t;
  process : option nat;
  status : Status;
  progress : Q;
  startTime : option Z;
  error : option string;
  outputSize : option Z;
}.

Definition setStatus (st : Status) (j : t) : t :=
  mk (id j) (config j) (process j) st (progress j) (startTime j) (error j) (outputSize j).
Definition setProgress (p : Q) (j : t) : t :=
  mk (id j) (config j) (process j) (status j) p (startTime j) (error j) (outputSize j).
Definition setStartTime (n : Z) (j : t) : t :=
  mk (id j) (config j) (process j) (status j) (progress j) (Some n) (error j) (outputSize j).
Definition setError (e : string) (j : t) : t :=
  mk (id j) (config j) (process j) (status j) (progress j) (startTime j) (Some e) (outputSize j).
Definition setProcess (h : nat) (j : t) : t :=
  mk (id j) (config j) (Some h) (status j) (progress j) (startTime j) (error j) (outputSize j).
Definition setOutputSize (n : Z) (j : t) : t :=
  mk (id j) (config j) (process j) (status j) (progress j) (startTime j) (error j) (Some n).
End Job.

Module JobProgress.
Record t := mk {
  jobId : string;
  fileId : string;
  status : Status;
  progress : Q;
  speed : option string;
  fps : option string;
  bitrate : option string;
  size : option string;
  time : option string;
  eta : option string;
}.
End JobProgress.

Inductive Outcome := success | failure.

(** The argument of [historyManager.addItem]. *)
Module History.
Record t := mk {
  inputPath : string;
  outputPath : string;
  preset : string;
  originalSize : Z;
  compressedSize : Z;
  compressionRatio : Q;
  duration : Z;
  status : Outcome;
  error : option string;
}.
End History.

Inductive LogLevel := info | warn | error.

(** What the manager emits. The text of a log message (built with
    [basename] and [formatBytes]) is not recorded. *)
Inductive Emitted :=
| Progress (p : JobProgress.t)
| Completed (jobId : string) (success : bool) (err : option string)
| Log (level : LogLevel) (timestamp : Z).

Inductive Signal := SIGKILL | SIGSTOP | SIGCONT.

(** What the handlers registered on one child close over. *)
Module Child.
Record t := mk {
  jobId : string;
  args : list string;
  stderr : string;
}.
End Child.

(** The manager. [activeJobs], [jobQueue] and [runningJobs] are its
    fields. [pending] holds the calls of [executeJob] suspended at their
    [await], oldest first; [children] the spawned processes by handle.
    [emitted], [history], [signals] and [faults] record, oldest first, the
    events emitted, the items added to the history, the signals sent and
    the exceptions that escaped a handler. [submitted] and [admitted] are
    ghost logs: the ids in the order [startJob] queued them and in the
    order [executeJob] set them running. *)
Record State := {
  activeJobs : gmap string Job.t;
  jobQueue : list string;
  runningJobs : list string;
  pending : list string;
  children : list Child.t;
  emitted : list Emitted;
  history : list History.t;
  signals : list (nat * Signal);
  faults : list string;
  submitted : list string;
  admitted : list string;
}.

Definition init : State :=
  {| activeJobs := ∅; jobQueue := []; runningJobs := []; pending := [];
     children := []; emitted := []; history := []; signals := [];
     faults := []; submitted := []; admitted := [] |}.

Definition withJobs (f : gmap string Job.t -> gmap string Job.t) (s : State) : State :=
  {| activeJobs := f (activeJobs s); jobQueue := jobQueue s; runningJobs := runningJobs s;
     pending := pending s; children := children s; emitted := emitted s;
     history := history s; signals := signals s; faults := faults s;
     submitted := submitted s; admitted := admitted s |}.

Definition withQueue (f : list string -> list string) (s : State) : State :=
  {| activeJobs := activeJobs s; jobQueue := f (jobQueue s); runningJobs := runningJobs s;
     pending := pending s; children := children s; emitted := emitted s;
     history := history s; signals := signals s; faults := faults s;
     submitted := submitted s; admitted := admitted s |}.

Definition withRunning (f : list string -> list string) (s : State) : State :=
  {| activeJobs := activeJobs s; jobQueue := jobQueue s; runningJobs := f (runningJobs s);
     pending := pending s; children := children s; emitted := emitted s;
     history := history s; signals := signals s; faults := faults s;
     submitted := submitted s; admitted := admitted s |}.

Definition withPending (f : list string -> list string) (s : State) : State :=
  {| activeJobs := activeJobs s; jobQueue := jobQueue s; runningJobs := runningJobs s;
     pending := f (pending s); children := children s; emitted := emitted s;
     history := history s; signals := signals s; faults := faults s;
     submitted := submitted s; admitted := admitted s |}.

Definition withChildren (f : list Child.t -> list Child.t) (s : State) : State :=
  {| activeJobs := activeJobs s; jobQueue := jobQueue s; runningJobs := runningJobs s;
     pending := pending s; children := f (children s); emitted := emitted s;
     history := history s; signals := signals s; faults := faults s;
     submitted := submitted s; admitted := admitted s |}.

Definition emit (e : Emitted) (s : State) : State :=
  {| activeJobs := activeJobs s; jobQueue := jobQueue s; runningJobs := runningJobs s;
     pending := pending s; children := children s; emitted := emitted s ++ [e];
     history := history s; signals := signals s; faults := faults s;
     submitted := submitted s; admitted := admitted s |}.

Definition addItem (h : History.t) (s : State) : State :=
  {| activeJobs := activeJobs s; jobQueue := jobQueue s; runningJobs := runningJobs s;
     pending := pending s; children := children s; emitted := emitted s;
     history := history s ++ [h]; signals := signals s; faults := faults s;
     submitted := submitted s; admitted := admitted s |}.

(** [job.process.kill(sig)] when the job has a process. *)
Definition kill (h : option nat) (sig : Signal) (s : State) : State :=
  {| activeJobs := activeJobs s; jobQueue := jobQueue s; runningJobs := runningJobs s;
     pending := pending s; children := children s; emitted := emitted s;
     history := history s;
     signals := signals s ++ match h with Some p => [(p, sig)] | None => [] end;
     faults := faults s;
     submitted := submitted s; admitted := admitted s |}.

Definition throw (msg : string) (s : State) : State :=
  {| activeJobs := activeJobs s; jobQueue := jobQueue s; runningJobs := runningJobs s;
     pending := pending s; children := children s; emitted := emitted s;
     history := history s; signals := signals s; faults := faults s ++ [msg];
     submitted := submitted s; admitted := admitted s |}.

Definition logSubmitted (jobId : string) (s : State) : State :=
  {| activeJobs := activeJobs s; jobQueue := jobQueue s; runningJobs := runningJobs s;
     pending := pending s; children := children s; emitted := emitted s;
     history := history s; signals := signals s; faults := faults s;
     submitted := submitted s ++ [jobId]; admitted := admitted s |}.

Definition logAdmitted (jobId : string) (s : State) : State :=
  {| activeJobs := activeJobs s; jobQueue := jobQueue s; runningJobs := runningJobs s;
     pending := pending s; children := children s; emitted := emitted s;
     history := history s; signals := signals s; faults := faults s;
     submitted := submitted s; admitted := admitted s ++ [jobId] |}.

(** A field assignment on the job object held in the map. *)
Definition mutate (jobId : string) (f : Job.t -> Job.t) : State -> State :=
  withJobs (alter f jobId).

(** [a.splice(a.indexOf(x), 1)] when [x] occurs: the first occurrence goes. *)
Fixpoint spliceOut (x : string) (l : list string) : list string :=
  match l with
  | [] => []
  | y :: l' => if decide (y = x) then l' else y :: spliceOut x l'
  end.

(** [a.filter(id => id !== x)]. *)
Definition without (x : string) (l : list string) : list string :=
  filter (fun y => y ≠ x) l.

(** ** The manager's methods *)

(** What the manager reads from its surroundings once and for all:
    the [maxParallelJobs] setting, the platform and the resolved path of
    the encoder. *)
Record Sys := {
  maxParallelJobs : nat;
  win32 : bool;
  ffmpegPath : string;
}.

(** What [startJob] obtains from [uuidv4], [fs] and [path]: the new id,
    whether the input exists, an exception of [mkdirSync] if any, whether
    the output exists, and the path [join(outputDir, name_timestamp ext)]
    that replaces it then. *)
Record SubmitEnv := {
  uuid : string;
  inputExists : bool;
  mkdirThrows : option string;
  outputExists : bool;
  uniquePath : string;
}.

(** What a resumed [executeJob] finds: whether the encoder binary exists,
    and the exception of [spawn] if it throws. *)
Record SpawnEnv := {
  binaryExists : bool;
  spawnThrows : option string;
}.

(** [executeJob] up to its [await]: the job is set running and the rest
    of the call is queued. *)
Definition executeJob (now : Z) (jobId : string) (s : State) : State :=
  match activeJobs s !! jobId with
  | None => s
  | Some job =>
      let job := Job.setStartTime now (Job.setStatus running job) in
      logAdmitted jobId
        (withPending (fun p => p ++ [jobId])
           (withJobs (insert jobId job) s))
  end.

(** The loop of [processQueue], on the queue still to be looked at. *)
Fixpoint processQueueFrom (sys : Sys) (now : Z) (queue : list string) (s : State) : State :=
  match queue with
  | [] => s
  | jobId :: queue' =>
      if (length (runningJobs s) <? maxParallelJobs sys)%nat then
        let s := withQueue (fun _ => queue') s in
        match activeJobs s !! jobId with
        | Some job =>
            if decide (Job.status job = waiting) then
              processQueueFrom sys now queue'
                (executeJob now jobId (withRunning (fun r => r ++ [jobId]) s))
            else processQueueFrom sys now queue' s
        | None => processQueueFrom sys now queue' s
        end
      else s
  end.

Definition processQueue (sys : Sys) (now : Z) (s : State) : State :=
  processQueueFrom sys now (jobQueue s) s.

(** The [catch] block of [executeJob]. *)
Definition executeJobCatch (sys : Sys) (now : Z) (jobId : string) (job : Job.t)
    (message : string) (s : State) : State :=
  let job := Job.setError message (Job.setStatus failed job) in
  processQueue sys now
    (emit (Completed jobId false (Job.error job))
       (withRunning (without jobId)
          (withJobs (insert jobId job) s))).

(** [executeJob] from its [await] on, for the oldest suspended call. *)
Definition executeJobResume (sys : Sys) (now : Z) (env : SpawnEnv) (s : State) : State :=
  match pending s with
  | [] => s
  | jobId :: rest =>
      let s := withPending (fun _ => rest) s in
      match activeJobs s !! jobId with
      | None => s
      | Some job =>
          match buildFfmpegArgs (win32 sys) (Job.config job) with
          | None =>
              executeJobCatch sys now jobId job
                "Cannot read properties of undefined (reading 'codec')" s
          | Some args =>
              if negb (binaryExists env) then
                executeJobCatch sys now jobId job
                  ("FFmpeg binary not found at: " +:+ ffmpegPath sys) s
              else
                match spawnThrows env with
                | Some message => executeJobCatch sys now jobId job message s
                | None =>
                    let ffmpeg := length (children s) in
                    withChildren (fun c => c ++ [Child.mk jobId args ""])
                      (withJobs (insert jobId (Job.setProcess ffmpeg job)) s)
                end
          end
      end
  end.

(** [startJob]; [inl] is the message of the [Error] thrown. *)
Definition startJob (sys : Sys) (now : Z) (env : SubmitEnv) (config : Config.t)
    (s : State) : string + State :=
  let jobId := uuid env in
  if negb (inputExists env) then inl "Input file does not exist"
  else
    match mkdirThrows env with
    | Some message => inl message
    | None =>
        let config :=
          if outputExists env then
            Config.mk (Config.inputPath config) (uniquePath env) (Config.preset config)
              (Config.targetSize config) (Config.customSettings config)
          else config in
        let job := Job.mk jobId config None waiting 0%Q None None None in
        inr (processQueue sys now
               (logSubmitted jobId
                  (withQueue (fun q => q ++ [jobId])
                     (withJobs (insert jobId job) s))))
    end.

(** [cancelJob]. *)
Definition cancelJob (sys : Sys) (now : Z) (jobId : string) (s : State) : string + State :=
  match activeJobs s !! jobId with
  | None => inl "Job not found"
  | Some job =>
      let s := kill (Job.process job) SIGKILL s in
      let job := Job.setStatus cancelled job in
      let s := withJobs (insert jobId job) s in
      let s := withQueue (spliceOut jobId) s in
      let s := withRunning (spliceOut jobId) s in
      let s := emit (Completed jobId false (Some "Job cancelled")) s in
      inr (processQueue sys now s)
  end.

(** [pauseJob]. *)
Definition pauseJob (jobId : string) (s : State) : string + State :=
  match activeJobs s !! jobId with
  | None => inl "Job not found"
  | Some job =>
      match Job.status job, Job.process job with
      | running, Some h =>
          inr (withJobs (insert jobId (Job.setStatus paused job))
                 (kill (Some h) SIGSTOP s))
      | _, _ => inr s
      end
  end.

(** [resumeJob]. *)
Definition resumeJob (jobId : string) (s : State) : string + State :=
  match activeJobs s !! jobId with
  | None => inl "Job not found"
  | Some job =>
      match Job.status job, Job.process job with
      | paused, Some h =>
          inr (withJobs (insert jobId (Job.setStatus running job))
                 (kill (Some h) SIGCONT s))
      | _, _ => inr s
      end
  end.

(** [clearCompletedJobs]. *)
Definition clearCompletedJobs (s : State) : State :=
  withJobs (filter (fun kv => terminal (Job.status kv.2) = false)) s.

(** The handles [cleanup] kills: the jobs that have a process and whose
    status is ['running']. *)
Definition cleanupVictims (jobs : gmap string Job.t) : list nat :=
  omap (fun kv => if decide (Job.status kv.2 = running) then Job.process kv.2 else None)
       (map_to_list jobs).

(** [cleanup]. *)
Definition cleanup (s : State) : State :=
  {| activeJobs := ∅; jobQueue := []; runningJobs := [];
     pending := pending s; children := children s; emitted := emitted s;
     history := history s;
     signals := signals s ++ ((fun h => (h, SIGKILL)) <$> cleanupVictims (activeJobs s));
     faults := faults s; submitted := submitted s; admitted := admitted s |}.

(** ** Handlers of a child's events *)

(** [speedMatch ? speedMatch[1] + 'x' : undefined] and its like. *)
Definition field (m : option (list string)) (suffix : string) : option string :=
  (fun g => grp g 1 +:+ suffix) <$> m.

(** [parseProgress]. *)
Definition parseProgress (now : Z) (jobId : string) (stderr : string) (s : State) : State :=
  match activeJobs s !! jobId with
  | None => s
  | Some job =>
      let m := matches stderr in
      let job :=
        match timeMatch m ≫= progressOf with
        | Some progress => Job.setProgress progress job
        | None => job
        end in
      let eta :=
        match Job.startTime job with
        | Some startTime =>
            if negb (startTime =? 0)%Z && negb (Qle_bool (Job.progress job) 0) then
              let elapsed := inject_Z (now - startTime) in
              let remaining := ((elapsed / Job.progress job) * (100 - Job.progress job))%Q in
              Some (formatDuration (remaining / 1000))
            else None
        | None => None
        end in
      let progressData :=
        {| JobProgress.jobId := jobId;
           JobProgress.fileId := Config.inputPath (Job.config job);
           JobProgress.status := Job.status job;
           JobProgress.progress := Job.progress job;
           JobProgress.speed := field (speedMatch m) "x";
           JobProgress.fps := field (fpsMatch m) "";
           JobProgress.bitrate := field (bitrateMatch m) "";
           JobProgress.size := field (sizeMatch m) "";
           JobProgress.time :=
             (fun g => grp g 1 +:+ ":" +:+ grp g 2 +:+ ":" +:+ grp g 3) <$> timeMatch m;
           JobProgress.eta := eta |} in
      emit (Progress progressData) (withJobs (insert jobId job) s)
  end.

(** The ['data'] handler of [ffmpeg.stderr]: the chunk is appended to the
    buffer of the call and the whole buffer is parsed. *)
Definition onData (now : Z) (h : nat) (chunk : string) (s : State) : State :=
  match children s !! h with
  | None => s
  | Some c =>
      let stderr := Child.stderr c +:+ chunk in
      parseProgress now (Child.jobId c) stderr
        (withChildren (insert h (Child.mk (Child.jobId c) (Child.args c) stderr)) s)
  end.

(** [updatedJob.startTime ? Date.now() - updatedJob.startTime : 0]. *)
Definition elapsedSince (now : Z) (startTime : option Z) : Z :=
  match startTime with
  | Some t => if (t =? 0)%Z then 0%Z else (now - t)%Z
  | None => 0%Z
  end.

(** [`${code}`] for an exit code that is [null] when a signal ended the
    process. *)
Definition codeText (code : option Z) : string :=
  match code with Some n => Js.toString n | None => "null" end.

(** The ['close'] handler. [outputStat] is the size of the output file
    when it exists, [inputStat] the size of the input file, [None] when
    [statSync] throws on it. *)
Definition onClose (sys : Sys) (now : Z) (h : nat) (code : option Z)
    (outputStat inputStat : option Z) (s : State) : State :=
  match children s !! h with
  | None => s
  | Some c =>
      let jobId := Child.jobId c in
      match activeJobs s !! jobId with
      | None => s
      | Some updatedJob =>
          let s := withRunning (without jobId) s in
          if decide (code = Some 0%Z) then
            let updatedJob := Job.setProgress 100%Q (Job.setStatus completed updatedJob) in
            let updatedJob :=
              match outputStat with
              | Some n => Job.setOutputSize n updatedJob
              | None => updatedJob
              end in
            let s := withJobs (insert jobId updatedJob) s in
            match inputStat with
            | None => throw "ENOENT: no such file or directory, stat" s
            | Some inputSize =>
                let outputSize := default 0%Z (Job.outputSize updatedJob) in
                let compressionRatio : Q :=
                  if (0 <? inputSize)%Z then (inject_Z outputSize / inject_Z inputSize)%Q else 1%Q in
                let duration := elapsedSince now (Job.startTime updatedJob) in
                let s :=
                  addItem
                    {| History.inputPath := Config.inputPath (Job.config updatedJob);
                       History.outputPath := Config.outputPath (Job.config updatedJob);
                       History.preset := Preset.id (Config.preset (Job.config updatedJob));
                       History.originalSize := inputSize;
                       History.compressedSize := outputSize;
                       History.compressionRatio := compressionRatio;
                       History.duration := duration;
                       History.status := success;
                       History.error := None |} s in
                let s := emit (Completed jobId true None) s in
                let s := emit (Log info now) s in
                processQueue sys now s
            end
          else
            let message :=
              "FFmpeg exited with code " +:+ codeText code +:+ ". Error: "
                +:+ Js.sliceLast 500 (Child.stderr c) in
            let updatedJob := Job.setError message (Job.setStatus failed updatedJob) in
            let s := withJobs (insert jobId updatedJob) s in
            match inputStat with
            | None => throw "ENOENT: no such file or directory, stat" s
            | Some inputSize =>
                let s :=
                  addItem
                    {| History.inputPath := Config.inputPath (Job.config updatedJob);
                       History.outputPath := Config.outputPath (Job.config updatedJob);
                       History.preset := Preset.id (Config.preset (Job.config updatedJob));
                       History.originalSize := inputSize;
                       History.compressedSize := 0;
                       History.compressionRatio := 0%Q;
                       History.duration := elapsedSince now (Job.startTime updatedJob);
                       History.status := failure;
                       History.error := Job.error updatedJob |} s in
                let s := emit (Completed jobId false (Job.error updatedJob)) s in
                let s := emit (Log error now) s in
                processQueue sys now s
            end
      end
  end.

(** The ['error'] handler. *)
Definition onError (sys : Sys) (now : Z) (h : nat) (message : string) (s : State) : State :=
  match children s !! h with
  | None => s
  | Some c =>
      let jobId := Child.jobId c in
      match activeJobs s !! jobId with
      | None => s
      | Some updatedJob =>
          let s := withRunning (without jobId) s in
          let updatedJob :=
            Job.setError ("FFmpeg process error: " +:+ message)
              (Job.setStatus failed updatedJob) in
          let s := withJobs (insert jobId updatedJob) s in
          let s := emit (Completed jobId false (Job.error updatedJob)) s in
          processQueue sys now s
      end
  end.

(** ** The event loop *)

(** One turn: a call of a public method (from the IPC handlers of
    index.ts), an event of a child, or the resumption of a suspended
    [executeJob]. *)
Inductive Op :=
| StartJob (env : SubmitEnv) (config : Config.t)
| CancelJob (jobId : string)
| PauseJob (jobId : string)
| ResumeJob (jobId : string)
| ClearCompletedJobs
| Cleanup
| OnData (h : nat) (chunk : string)
| OnClose (h : nat) (code : option Z) (outputStat inputStat : option Z)
| OnError (h : nat) (message : string)
| Continue (env : SpawnEnv).

(** A rejected promise leaves the state as it was. *)
Definition settle (s : State) (r : string + State) : State :=
  match r with inl _ => s | inr s' => s' end.

(** Suspended calls resume before any other handler runs. *)
Definition step (sys : Sys) (s : State) (turn : Z * Op) : State :=
  let '(now, op) := turn in
  match op, pending s with
  | Continue env, _ => executeJobResume sys now env s
  | StartJob env config, [] => settle s (startJob sys now env config s)
  | CancelJob jobId, [] => settle s (cancelJob sys now jobId s)
  | PauseJob jobId, [] => settle s (pauseJob jobId s)
  | ResumeJob jobId, [] => settle s (resumeJob jobId s)
  | ClearCompletedJobs, [] => clearCompletedJobs s
  | Cleanup, [] => cleanup s
  | OnData h chunk, [] => onData now h chunk s
  | OnClose h code outputStat inputStat, [] => onClose sys now h code outputStat inputStat s
  | OnError h message, [] => onError sys now h message s
  | _, _ :: _ => s
  end.

Definition exec (sys : Sys) (turns : list (Z * Op)) (s : State) : State :=
  foldl (step sys) s turns.

(** The number of jobs whose status is ['running']. *)
Definition runningCount (s : State) : nat :=
  size (filter (fun kv => Job.status kv.2 = running) (activeJobs s)).

(** ** The default presets and sample executions *)

Definition DEFAULT_PRESETS : list Preset.t :=
  [ {| Preset.id := "github-pr"; Preset.name := "GitHub PR";
       Preset.video := Some (Video.mk libx264 (Some 23%Z) None veryfast (Some high) None
                               "yuv420p" (Some 1920%Z) (Some 1080%Z) (Some 30%Z) false);
       Preset.audio := Some (Audio.mk aac "128k" None None);
       Preset.removeVideo := None; Preset.removeAudio := None |};
    {| Preset.id := "high-compression"; Preset.name := "high compression";
       Preset.video := Some (Video.mk libx264 (Some 28%Z) None veryfast (Some high) None
                               "yuv420p" (Some 1280%Z) (Some 720%Z) (Some 30%Z) false);
       Preset.audio := Some (Audio.mk aac "96k" None None);
       Preset.removeVideo := None; Preset.removeAudio := None |};
    {| Preset.id := "quality-priority"; Preset.name := "quality priority";
       Preset.video := Some (Video.mk libx264 (Some 20%Z) None slow (Some high) None
                               "yuv420p" None None None false);
       Preset.audio := Some (Audio.mk aac "192k" None None);
       Preset.removeVideo := None; Preset.removeAudio := None |};
    {| Preset.id := "audio-only"; Preset.name := "audio only";
       Preset.video := None;
       Preset.audio := Some (Audio.mk aac "128k" None None);
       Preset.removeVideo := Some true; Preset.removeAudio := None |};
    {| Preset.id := "target-size"; Preset.name := "target size";
       Preset.video := Some (Video.mk libx264 None None veryfast (Some high) None
                               "yuv420p" None None None true);
       Preset.audio := Some (Audio.mk aac "128k" None None);
       Preset.removeVideo := None; Preset.removeAudio := None |} ].

Definition noPreset : Preset.t := Preset.mk "" "" None None None None.
Definition githubPr : Preset.t := default noPreset (DEFAULT_PRESETS !! 0).
Definition targetSizePreset : Preset.t := default noPreset (DEFAULT_PRESETS !! 4).

Definition sampleSys : Sys :=
  {| maxParallelJobs := 2; win32 := false; ffmpegPath := "/usr/bin/ffmpeg" |}.

Definition sampleConfig : Config.t := Config.mk "in.mov" "out.mp4" githubPr None None.

(** A submission of [sampleConfig] under the given id, with the input
    present and the output path free. *)
Definition submit (jobId : string) : Op :=
  StartJob {| uuid := jobId; inputExists := true; mkdirThrows := None;
              outputExists := false; uniquePath := "" |} sampleConfig.

(** A resumed [executeJob] that finds the binary and spawns the child. *)
Definition spawned : Op := Continue {| binaryExists := true; spawnThrows := None |}.

(** One job, encoded to the end: the child exits with code zero. *)
Definition completedRun : list (Z * Op) :=
  [(1, submit "a"); (1, spawned);
   (7, OnClose 0 (Some 0) (Some 40000000) (Some 100000000))]%Z.

Definition completedJob : Job.t :=
  Eval vm_compute in
    default (Job.mk "" sampleConfig None waiting 0 None None None)
      (activeJobs (exec sampleSys completedRun init) !! "a").

(** Three jobs for two slots: the third waits. *)
Definition queuedRun : list (Z * Op) :=
  [(1, submit "a"); (1, spawned); (2, submit "b"); (2, spawned); (3, submit "c")]%Z.

(** One job, running and then paused. *)
Definition pausedRun : list (Z * Op) :=
  [(1, submit "a"); (1, spawned); (2, PauseJob "a")]%Z.

(** One job whose child reports an error after some output. *)
Definition erroredRun : list (Z * Op) :=
  [(1, submit "a"); (1, spawned); (2, OnData 0 "Conversion failed!")]%Z.

(** One job whose child has written a first progress record. *)
Definition recordedRun : list (Z * Op) :=
  [(1, submit "a"); (1, spawned);
   (2, OnData 0 "fps= 25 q=28.0 size=     256kB time=00:00:04.00 bitrate= 524.3kbits/s speed=1.0x")]%Z.

Definition recordedChild : Child.t :=
  Eval vm_compute in
    default (Child.mk "" [] "") (children (exec sampleSys recordedRun init) !! 0).

Definition recordedJob : Job.t :=
  Eval vm_compute in
    default (Job.mk "" sampleConfig None waiting 0 None None None)
      (activeJobs (exec sampleSys recordedRun init) !! "a").

(** The next line of output of that child. *)
Definition secondRecord : string :=
  "fps= 26 q=28.0 size=     512kB time=00:00:08.00 bitrate= 524.3kbits/s speed=1.1x".

(** ** Predicates of the properties *)

(** A job that occupies a slot: its status is ['running'] or ['paused']. *)
Definition live (st : Status) : bool :=
  match st with running | paused => true | _ => false end.

(** Every live job is listed in [runningJobs]. *)
Definition covered (s : State) : Prop :=
  ∀ jobId job, activeJobs s !! jobId = Some job →
    live (Job.status job) = true → jobId ∈ runningJobs s.

(** The cover, and no more ids listed than [maxParallelJobs]. *)
Definition bounded (sys : Sys) (s : State) : Prop :=
  covered s ∧ length (runningJobs s) ≤ maxParallelJobs sys.

(** The jobs set running so far, followed by the queue, form a
    subsequence of the submissions. *)
Definition fifo (s : State) : Prop :=
  admitted s ++ jobQueue s `sublist_of` submitted s.

(** The ids the submissions of an execution draw from [uuidv4]. *)
Definition uuids (turns : list (Z * Op)) : list string :=
  omap (fun turn => match turn.2 with StartJob env _ => Some (uuid env) | _ => None end) turns.

(** The registry, the queue, the running list and the logs agree: queued
    ids are waiting jobs, listed ids are live jobs, listed once, and what
    is listed, suspended or owns a child has been set running. *)
Record consistent (s : State) : Prop := {
  c_fifo : fifo s;
  c_fresh : NoDup (submitted s);
  c_queue : ∀ k, k ∈ jobQueue s →
    ∃ j, activeJobs s !! k = Some j ∧ Job.status j = waiting;
  c_running : ∀ k, k ∈ runningJobs s →
    ∃ j, activeJobs s !! k = Some j ∧ live (Job.status j) = true;
  c_nodup : NoDup (runningJobs s);
  c_started : ∀ k,
    k ∈ runningJobs s ∨ k ∈ pending s ∨ k ∈ Child.jobId <$> children s →
    k ∈ admitted s;
}.

(** What the admission loop leaves alone. *)
Definition sameOutputs (s s' : State) : Prop :=
  emitted s' = emitted s ∧ history s' = history s ∧ signals s' = signals s ∧
  faults s' = faults s ∧ children s' = children s ∧ submitted s' = submitted s.

(** Overrides that bring a video object of their own, without a quality
    factor. *)
Definition plainVideo : Partial.t :=
  {| Partial.id := absent; Partial.name := absent;
     Partial.video := bound (Some (Video.mk libx264 None None veryfast None None
                                     "yuv420p" None None None false));
     Partial.audio := absent; Partial.removeVideo := absent;
     Partial.removeAudio := absent |}.

(** A submission of the first default preset with those overrides. *)
Definition overriddenConfig : Config.t :=
  Config.mk "in.mov" "out.mp4" githubPr None (Some plainVideo).

(** ** The history store (packages/main/src/history/HistoryManager.ts) *)

(** [HistoryItem]: what [addItem] was given, under an id and a time. *)
Module HistoryItem.
Record t := mk {
  id : string;
  timestamp : Z;
  item : History.t;
}.
End HistoryItem.

Module HistoryManager.

(** The items of the store, newest first, and [maxItems]. *)
Record t := mk {
  items : list HistoryItem.t;
  maxItems : nat;
}.

(** A new manager on an empty store. *)
Definition create : t := mk [] 100.

(** [addItem]: the item goes to the front and the list is cut at
    [maxItems]. The id is the result of [generateId], the timestamp that
    of [Date.now]. *)
Definition addItem (id : string) (now : Z) (item : History.t) (m : t) : t :=
  let items := HistoryItem.mk id now item :: items m in
  mk (if maxItems m <? length items then take (maxItems m) items else items)
     (maxItems m).

(** [getHistory]. *)
Definition getHistory (limit : option Z) (m : t) : list HistoryItem.t :=
  match limit with
  | Some n => if (0 <? n)%Z then take (Z.to_nat n) (items m) else items m
  | None => items m
  end.

(** [getHistoryItem]. *)
Definition getHistoryItem (id : string) (m : t) : option HistoryItem.t :=
  find (fun it => String.eqb (HistoryItem.id it) id) (items m).

(** [removeHistoryItem]: whether an item was removed, and the store. *)
Definition removeHistoryItem (id : string) (m : t) : bool * t :=
  let filteredItems := filter (fun it => HistoryItem.id it ≠ id) (items m) in
  if length filteredItems =? length (items m) then (false, m)
  else (true, mk filteredItems (maxItems m)).

(** [clearHistory]. *)
Definition clearHistory (m : t) : t := mk [] (maxItems m).

(** [setMaxItems]; [inl] is the message of the [Error] thrown. *)
Definition setMaxItems (n : nat) (m : t) : string + t :=
  if n <? 1 then inl "maxItems must be at least 1"
  else inr (mk (if n <? length (items m) then take n (items m) else items m) n).

Record Statistics := {
  totalJobs : nat;
  successfulJobs : nat;
  failedJobs : nat;
  totalOriginalSize : Z;
  totalCompressedSize : Z;
  averageCompressionRatio : Q;
  totalTimeSaved : Z;
}.

Definition isSuccess (it : HistoryItem.t) : bool :=
  match History.status (HistoryItem.item it) with success => true | failure => false end.

Definition isFailed (it : HistoryItem.t) : bool :=
  match History.status (HistoryItem.item it) with failure => true | success => false end.

(** [getStatistics]. *)
Definition getStatistics (m : t) : Statistics :=
  let items := items m in
  let successfulItems := List.filter isSuccess items in
  let totalOriginalSize :=
    foldl (fun sum it => (sum + History.originalSize (HistoryItem.item it))%Z) 0%Z
      successfulItems in
  let totalCompressedSize :=
    foldl (fun sum it => (sum + History.compressedSize (HistoryItem.item it))%Z) 0%Z
      successfulItems in
  {| totalJobs := length items;
     successfulJobs := length (List.filter isSuccess items);
     failedJobs := length (List.filter isFailed items);
     totalOriginalSize := totalOriginalSize;
     totalCompressedSize := totalCompressedSize;
     averageCompressionRatio :=
       if 0 <? length successfulItems then
         (foldl (fun sum it => sum + History.compressionRatio (HistoryItem.item it)) 0
            successfulItems / inject_Z (Z.of_nat (length successfulItems)))%Q
       else 0%Q;
     totalTimeSaved := (totalOriginalSize - totalCompressedSize)%Z |}.

(** The operations on a store. *)
Inductive Call :=
| AddItem (id : string) (now : Z) (item : History.t)
| RemoveHistoryItem (id : string)
| ClearHistory
| SetMaxItems (n : nat).

Definition call (m : t) (c : Call) : t :=
  match c with
  | AddItem id now item => addItem id now item m
  | RemoveHistoryItem id => (removeHistoryItem id m).2
  | ClearHistory => clearHistory m
  | SetMaxItems n => match setMaxItems n m with inl _ => m | inr m' => m' end
  end.

End HistoryManager.

(** ** File names (packages/main/src/utils) *)

(** The characters the expression of [sanitizeFilename] lists: the angle
    brackets, the colon, the double quote (code 34), both slashes, the bar,
    the question mark and the star. *)
Definition forbiddenChar (a : ascii) : bool :=
  existsb (Ascii.eqb a)
    ["<"; ">"; ":"; ascii_of_nat 34; "/"; "\"; "|"; "?"; "*"]%char.

(** [sanitizeFilename]: every forbidden character becomes ['_']. *)
Fixpoint sanitizeFilename (filename : string) : string :=
  match filename with
  | EmptyString => EmptyString
  | String a rest =>
      String (if forbiddenChar a then "_"%char else a) (sanitizeFilename rest)
  end.

(** The registry entries of the sample executions. *)
Definition noJob : Job.t := Job.mk "" sampleConfig None waiting 0 None None None.

Definition queuedJobA : Job.t :=
  Eval vm_compute in default noJob (activeJobs (exec sampleSys queuedRun init) !! "a").

Definition queuedJobC : Job.t :=
  Eval vm_compute in default noJob (activeJobs (exec sampleSys queuedRun init) !! "c").

(** One job, submitted and set running, its [executeJob] still suspended. *)
Definition submittedRun : list (Z * Op) := [(1%Z, submit "a")].

Definition submittedJob : Job.t :=
  Eval vm_compute in default noJob (activeJobs (exec sampleSys submittedRun init) !! "a").

(** ** Predicates of the further properties *)

(** Every waiting job is queued. *)
Definition queuedAll (s : State) : Prop :=
  ∀ jobId job, activeJobs s !! jobId = Some job →
    Job.status job = waiting → jobId ∈ jobQueue s.

(** A progress from 0 to 100. *)
Definition inRange (q : Q) : Prop := (0 <= q)%Q ∧ (q <= 100)%Q.

(** Every job of the registry and every progress event emitted so far
    carries a progress from 0 to 100. *)
Definition progressOk (s : State) : Prop :=
  (∀ k job, activeJobs s !! k = Some job → inRange (Job.progress job)) ∧
  (∀ p, Progress p ∈ emitted s → inRange (JobProgress.progress p)).

(** The admission pass has done its work: unless a handler has thrown, a
    job is queued only while every slot is taken. *)
Definition saturated (sys : Sys) (s : State) : Prop :=
  faults s = [] → jobQueue s ≠ [] → maxParallelJobs sys ≤ length (runningJobs s).

(** A job that has never been set running, is not queued, and is
    cancelled if it is still in the registry. *)
Definition neverStarted (jobId : string) (s : State) : Prop :=
  (jobId ∉ admitted s) ∧ (jobId ∉ jobQueue s) ∧
  (∀ job, activeJobs s !! jobId = Some job → Job.status job = cancelled).

(** Only a job that has been set running owns a process. *)
Definition processOwned (s : State) : Prop :=
  ∀ k job, activeJobs s !! k = Some job → Job.process job ≠ None → k ∈ admitted s.

(** * Properties *)

(** ** Bounded parallelism *)

Lemma runningCount_le s : covered s → runningCount s ≤ length (runningJobs s).
Proof.
  intros Hc. unfold runningCount.
  rewrite <- length_map_to_list, <- (length_fmap fst).
  apply submseteq_length, NoDup_submseteq.
  - apply NoDup_fst_map_to_list.
  - intros jobId [[k job] [-> Hin]]%list_elem_of_fmap.
    apply elem_of_map_to_list, map_lookup_filter_Some in Hin as [Hj Hr].
    simpl in *. apply (Hc _ _ Hj). by rewrite Hr.
Qed.

Lemma elem_of_spliceOut x y l : y ≠ x → y ∈ l → y ∈ spliceOut x l.
Proof.
  intros Hne. induction l as [|z l IH]; simpl; [done|].
  intros [->|Hin]%elem_of_cons.
  - case_decide; [done | by left].
  - case_decide; [done | right; auto].
Qed.

Lemma length_spliceOut x l : length (spliceOut x l) ≤ length l.
Proof. induction l as [|z l IH]; simpl; [done|]. case_decide; simpl; lia. Qed.

Lemma elem_of_without x y l : y ∈ without x l ↔ y ≠ x ∧ y ∈ l.
Proof. unfold without. by rewrite list_elem_of_filter. Qed.

Lemma length_without x l : length (without x l) ≤ length l.
Proof. apply length_filter. Qed.

(** The cover survives storing one job, as long as the other listed ids
    stay listed and the stored job, if live, is listed. *)
Lemma covered_update s s' jobId job :
  covered s →
  activeJobs s' = <[jobId:=job]> (activeJobs s) →
  (∀ y, y ≠ jobId → y ∈ runningJobs s → y ∈ runningJobs s') →
  (live (Job.status job) = true → jobId ∈ runningJobs s') →
  covered s'.
Proof.
  intros Hc Hjobs Hkeep Hj k j. rewrite Hjobs, lookup_insert. case_decide as Hk.
  - intros [= <-]. by subst.
  - intros Hl Hlive. apply Hkeep; [done|]. by eapply Hc.
Qed.

Lemma covered_sub s s' :
  covered s →
  (∀ k j, activeJobs s' !! k = Some j → activeJobs s !! k = Some j) →
  runningJobs s' = runningJobs s →
  covered s'.
Proof. intros Hc Hsub Hr k j Hk Hl. rewrite Hr. eapply Hc; eauto. Qed.

Lemma executeJob_covered now jobId s :
  covered s → jobId ∈ runningJobs s → covered (executeJob now jobId s).
Proof.
  intros Hc Hin. unfold executeJob. destruct (activeJobs s !! jobId) as [job|]; [|done].
  eapply covered_update; [exact Hc|reflexivity|done|done].
Qed.

Lemma executeJob_runningJobs now jobId s :
  runningJobs (executeJob now jobId s) = runningJobs s.
Proof. unfold executeJob. by destruct (_ !! _). Qed.

Lemma processQueueFrom_bounded sys now queue s :
  bounded sys s → bounded sys (processQueueFrom sys now queue s).
Proof.
  revert s. induction queue as [|jobId queue IH]; intros s [Hc Hlen]; simpl; [done|].
  destruct (Nat.ltb_spec (length (runningJobs s)) (maxParallelJobs sys)) as [Hlt|]; [|done].
  assert (bounded sys (withQueue (λ _, queue) s)) as Hq by done.
  destruct (activeJobs s !! jobId) as [job|]; [|by apply IH].
  case_decide; [|by apply IH].
  apply IH. split.
  - apply executeJob_covered; [|simpl; apply elem_of_app; right; apply list_elem_of_here].
    intros k j Hk Hl. simpl. apply elem_of_app. left. by eapply Hc.
  - rewrite executeJob_runningJobs. simpl. rewrite length_app. simpl. lia.
Qed.

Lemma processQueue_bounded sys now s : bounded sys s → bounded sys (processQueue sys now s).
Proof. apply processQueueFrom_bounded. Qed.

(** A handler that stores one job, shrinks [runningJobs] and then runs the
    queue. *)
Lemma bounded_update sys s s' jobId job :
  bounded sys s →
  activeJobs s' = <[jobId:=job]> (activeJobs s) →
  (∀ y, y ≠ jobId → y ∈ runningJobs s → y ∈ runningJobs s') →
  (live (Job.status job) = true → jobId ∈ runningJobs s') →
  length (runningJobs s') ≤ length (runningJobs s) →
  bounded sys s'.
Proof.
  intros [Hc Hlen] Hjobs Hkeep Hj Hle. split; [by eapply covered_update|lia].
Qed.

Lemma executeJobCatch_bounded sys now jobId job message s :
  bounded sys s → bounded sys (executeJobCatch sys now jobId job message s).
Proof.
  intros Hb. apply processQueue_bounded.
  eapply bounded_update; [exact Hb|reflexivity|..]; simpl.
  - intros y Hy Hin. by apply elem_of_without.
  - done.
  - apply length_without.
Qed.

Lemma executeJobResume_bounded sys now env s :
  bounded sys s → bounded sys (executeJobResume sys now env s).
Proof.
  intros Hb. unfold executeJobResume. destruct (pending s) as [|jobId rest]; [done|].
  simpl. destruct (activeJobs s !! jobId) as [job|] eqn:Hjob; [|done].
  destruct (buildFfmpegArgs _ _); [|by apply executeJobCatch_bounded].
  destruct (binaryExists env); simpl; [|by apply executeJobCatch_bounded].
  destruct (spawnThrows env); [by apply executeJobCatch_bounded|].
  eapply bounded_update; [exact Hb|reflexivity|done| |done].
  simpl. intros Hl. destruct Hb as [Hc _]. by eapply Hc.
Qed.

Lemma startJob_bounded sys now env config s :
  bounded sys s → bounded sys (settle s (startJob sys now env config s)).
Proof.
  intros Hb. unfold startJob. destruct (inputExists env); simpl; [|done].
  destruct (mkdirThrows env); simpl; [done|].
  apply processQueue_bounded.
  eapply bounded_update; [exact Hb|reflexivity|done|done|done].
Qed.

Lemma cancelJob_bounded sys now jobId s :
  bounded sys s → bounded sys (settle s (cancelJob sys now jobId s)).
Proof.
  intros Hb. unfold cancelJob. destruct (activeJobs s !! jobId) as [job|]; simpl; [|done].
  apply processQueue_bounded.
  eapply bounded_update; [exact Hb|reflexivity|..]; simpl.
  - intros y Hy Hin. by apply elem_of_spliceOut.
  - done.
  - apply length_spliceOut.
Qed.

Lemma pauseJob_bounded sys jobId s :
  bounded sys s → bounded sys (settle s (pauseJob jobId s)).
Proof.
  intros Hb. unfold pauseJob. destruct (activeJobs s !! jobId) as [job|] eqn:Hjob; simpl; [|done].
  destruct (Job.status job) eqn:Hst, (Job.process job); simpl; try done.
  eapply bounded_update; [exact Hb|reflexivity|done| |done].
  simpl. intros _. destruct Hb as [Hc _]. eapply Hc; [done|]. by rewrite Hst.
Qed.

Lemma resumeJob_bounded sys jobId s :
  bounded sys s → bounded sys (settle s (resumeJob jobId s)).
Proof.
  intros Hb. unfold resumeJob. destruct (activeJobs s !! jobId) as [job|] eqn:Hjob; simpl; [|done].
  destruct (Job.status job) eqn:Hst, (Job.process job); simpl; try done.
  eapply bounded_update; [exact Hb|reflexivity|done| |done].
  simpl. intros _. destruct Hb as [Hc _]. eapply Hc; [done|]. by rewrite Hst.
Qed.

Lemma clearCompletedJobs_bounded sys s :
  bounded sys s → bounded sys (clearCompletedJobs s).
Proof.
  intros [Hc Hlen]. split; [|done].
  eapply covered_sub; [exact Hc| |done].
  intros k j. simpl. by intros [? _]%map_lookup_filter_Some.
Qed.

Lemma cleanup_bounded sys s : bounded sys (cleanup s).
Proof. split; [|simpl; lia]. intros k j. simpl. by rewrite lookup_empty. Qed.

Lemma parseProgress_bounded sys now jobId stderr s :
  bounded sys s → bounded sys (parseProgress now jobId stderr s).
Proof.
  intros Hb. unfold parseProgress.
  destruct (activeJobs s !! jobId) as [job|] eqn:Hjob; [|done].
  eapply bounded_update; [exact Hb|reflexivity|done| |done].
  simpl. intros Hl. destruct Hb as [Hc _]. eapply Hc; [done|].
  by destruct (_ ≫= _).
Qed.

Lemma onData_bounded sys now h chunk s :
  bounded sys s → bounded sys (onData now h chunk s).
Proof.
  intros Hb. unfold onData. destruct (children s !! h); [|done].
  by apply parseProgress_bounded.
Qed.

Lemma onClose_bounded sys now h code outputStat inputStat s :
  bounded sys s → bounded sys (onClose sys now h code outputStat inputStat s).
Proof.
  intros Hb. unfold onClose. destruct (children s !! h) as [c|]; [|done].
  destruct (activeJobs s !! Child.jobId c) as [job|]; [|done].
  case_decide; destruct inputStat; try apply processQueue_bounded;
    (eapply bounded_update; [exact Hb|reflexivity|..]; simpl;
     [ intros y Hy Hin; by apply elem_of_without
     | by destruct outputStat
     | apply length_without ]).
Qed.

Lemma onError_bounded sys now h message s :
  bounded sys s → bounded sys (onError sys now h message s).
Proof.
  intros Hb. unfold onError. destruct (children s !! h) as [c|]; [|done].
  destruct (activeJobs s !! Child.jobId c) as [job|]; [|done].
  apply processQueue_bounded.
  eapply bounded_update; [exact Hb|reflexivity|..]; simpl.
  - intros y Hy Hin. by apply elem_of_without.
  - done.
  - apply length_without.
Qed.

Lemma step_bounded sys s turn : bounded sys s → bounded sys (step sys s turn).
Proof.
  intros Hb. destruct turn as [now op]. unfold step.
  destruct op, (pending s);
    auto using executeJobResume_bounded, startJob_bounded, cancelJob_bounded,
      pauseJob_bounded, resumeJob_bounded, clearCompletedJobs_bounded,
      cleanup_bounded, onData_bounded, onClose_bounded, onError_bounded.
Qed.

Lemma init_bounded sys : bounded sys init.
Proof. split; [|simpl; lia]. intros k j. simpl. by rewrite lookup_empty. Qed.

Lemma exec_bounded sys turns s : bounded sys s → bounded sys (exec sys turns s).
Proof.
  revert s. induction turns as [|turn turns IH]; intros s Hb; [done|].
  apply IH. by apply step_bounded.
Qed.

(** C1. Whatever the configured [maxParallelJobs] and whatever the
    sequence of submissions, cancellations, pauses, resumptions, child
    events and resumed calls, the number of jobs whose status is
    ['running'] never exceeds [maxParallelJobs]: it holds in the state
    after every sequence of turns, hence after every prefix of an
    execution. *)
Theorem running_never_exceeds_maxParallelJobs (sys : Sys) (turns : list (Z * Op)) :
  runningCount (exec sys turns init) ≤ maxParallelJobs sys.
Proof.
  destruct (exec_bounded sys turns init (init_bounded sys)) as [Hc Hlen].
  pose proof (runningCount_le _ Hc). lia.
Qed.

(** ** Admission in arrival order *)

Lemma sublist_spliceOut x l : spliceOut x l `sublist_of` l.
Proof.
  induction l as [|y l IH]; simpl; [done|].
  case_decide; [by apply sublist_cons | by apply sublist_skip].
Qed.

(** A handler that leaves the logs alone and at most removes ids from the
    queue. *)
Lemma fifo_shrink s s' :
  fifo s → admitted s' = admitted s → submitted s' = submitted s →
  jobQueue s' `sublist_of` jobQueue s → fifo s'.
Proof.
  unfold fifo. intros Hf -> -> Hq. etrans; [|exact Hf]. by apply sublist_app.
Qed.

Lemma executeJob_logs now jobId s job :
  activeJobs s !! jobId = Some job →
  admitted (executeJob now jobId s) = admitted s ++ [jobId] ∧
  jobQueue (executeJob now jobId s) = jobQueue s ∧
  submitted (executeJob now jobId s) = submitted s.
Proof. intros Hj. unfold executeJob. by rewrite Hj. Qed.

Lemma processQueueFrom_fifo sys now queue s :
  jobQueue s = queue → fifo s → fifo (processQueueFrom sys now queue s).
Proof.
  revert s. induction queue as [|jobId queue IH]; intros s Hq Hf; simpl; [done|].
  destruct (_ <? _); [|done].
  assert (fifo (withQueue (λ _, queue) s)) as Hdrop.
  { eapply fifo_shrink; [exact Hf|done|done|]. simpl. rewrite Hq. by apply sublist_cons. }
  destruct (activeJobs s !! jobId) as [job|] eqn:Hjob; [|by apply IH].
  case_decide; [|by apply IH].
  set (s1 := withRunning _ _).
  destruct (executeJob_logs now jobId s1 job Hjob) as (Ha & Hq' & Hs).
  apply IH; [by rewrite Hq'|].
  unfold fifo. rewrite Ha, Hq', Hs. simpl.
  rewrite <- app_assoc. simpl. unfold fifo in Hf. by rewrite Hq in Hf.
Qed.

Lemma processQueue_fifo sys now s : fifo s → fifo (processQueue sys now s).
Proof. by apply processQueueFrom_fifo. Qed.

Lemma executeJobResume_fifo sys now env s : fifo s → fifo (executeJobResume sys now env s).
Proof.
  intros Hf. unfold executeJobResume. destruct (pending s) as [|jobId rest]; [done|].
  simpl. destruct (activeJobs s !! jobId) as [job|]; [|done].
  destruct (buildFfmpegArgs _ _); [|by apply processQueue_fifo].
  destruct (binaryExists env); simpl; [|by apply processQueue_fifo].
  destruct (spawnThrows env); [by apply processQueue_fifo|done].
Qed.

Lemma startJob_fifo sys now env config s :
  fifo s → fifo (settle s (startJob sys now env config s)).
Proof.
  intros Hf. unfold startJob. destruct (inputExists env); simpl; [|done].
  destruct (mkdirThrows env); simpl; [done|].
  apply processQueue_fifo. unfold fifo. simpl. rewrite app_assoc.
  by apply sublist_app.
Qed.

Lemma cancelJob_fifo sys now jobId s :
  fifo s → fifo (settle s (cancelJob sys now jobId s)).
Proof.
  intros Hf. unfold cancelJob. destruct (activeJobs s !! jobId); simpl; [|done].
  apply processQueue_fifo.
  eapply fifo_shrink; [exact Hf|done|done|]. apply sublist_spliceOut.
Qed.

Lemma step_fifo sys s turn : fifo s → fifo (step sys s turn).
Proof.
  intros Hf. destruct turn as [now op]. unfold step.
  destruct op, (pending s) eqn:Hp;
    auto using executeJobResume_fifo, startJob_fifo, cancelJob_fifo.
  - unfold pauseJob. destruct (_ !! _) as [job|]; [|done].
    by destruct (Job.status job), (Job.process job).
  - unfold resumeJob. destruct (_ !! _) as [job|]; [|done].
    by destruct (Job.status job), (Job.process job).
  - eapply fifo_shrink; [exact Hf|done|done|]. apply sublist_nil_l.
  - unfold onData, parseProgress. destruct (_ !! _); [|done]. simpl.
    by destruct (_ !! _).
  - unfold onClose. destruct (_ !! _); [|done]. destruct (_ !! _); [|done].
    case_decide; destruct inputStat; try done; by apply processQueue_fifo.
  - unfold onError. destruct (_ !! _); [|done]. destruct (_ !! _); [|done].
    by apply processQueue_fifo.
Qed.

Lemma exec_fifo sys turns s : fifo s → fifo (exec sys turns s).
Proof.
  revert s. induction turns as [|turn turns IH]; intros s Hf; [done|].
  apply IH. by apply step_fifo.
Qed.

(** ** Consistency of the registry, the queue and the running list

    [uuidv4] never returns the same id twice: the executions considered
    from here on submit each id once. *)

Lemma consistent_NoDup s : consistent s → NoDup (admitted s ++ jobQueue s).
Proof. intros H. eapply sublist_NoDup; [apply (c_fresh s H) | apply (c_fifo s H)]. Qed.

Lemma admitted_not_queued s k : consistent s → k ∈ admitted s → k ∉ jobQueue s.
Proof. intros H%consistent_NoDup Hk. apply NoDup_app in H as (_ & H & _). auto. Qed.

Lemma not_waiting_not_queued s k job :
  consistent s → activeJobs s !! k = Some job → Job.status job ≠ waiting →
  k ∉ jobQueue s.
Proof.
  intros H Hk Hst Hin. destruct (c_queue s H k Hin) as (j & Hj & Hw). congruence.
Qed.

Lemma not_live_not_running s k job :
  consistent s → activeJobs s !! k = Some job → live (Job.status job) = false →
  k ∉ runningJobs s.
Proof.
  intros H Hk Hst Hin. destruct (c_running s H k Hin) as (j & Hj & Hw). congruence.
Qed.

Lemma spliceOut_id x l : x ∉ l → spliceOut x l = l.
Proof.
  induction l as [|y l IH]; simpl; [done|]. intros [Hne Hl]%not_elem_of_cons.
  case_decide; [congruence|]. by rewrite IH.
Qed.

Lemma not_elem_of_spliceOut x l : NoDup l → x ∉ spliceOut x l.
Proof.
  induction 1 as [|y l Hy Hl IH]; simpl; [apply not_elem_of_nil|].
  case_decide; [by subst|]. apply not_elem_of_cons. split; [congruence|done].
Qed.

(** A handler that stores a job in a state that is neither waiting nor
    live, once its id has left the queue and the running list. *)
Lemma consistent_retire s s' jobId job :
  consistent s →
  activeJobs s' = <[jobId:=job]> (activeJobs s) →
  Job.status job ≠ waiting → live (Job.status job) = false →
  jobQueue s' `sublist_of` jobQueue s → jobId ∉ jobQueue s' →
  runningJobs s' `sublist_of` runningJobs s → jobId ∉ runningJobs s' →
  pending s' `sublist_of` pending s → children s' = children s →
  admitted s' = admitted s → submitted s' = submitted s →
  consistent s'.
Proof.
  intros H Hjobs Hw Hl Hq Hnq Hr Hnr Hp Hc Ha Hs. split.
  - by eapply fifo_shrink; [apply (c_fifo s H)|..].
  - rewrite Hs. apply (c_fresh s H).
  - intros k Hk. rewrite Hjobs, lookup_insert_ne; [|by intros ->].
    eapply (c_queue s H), elem_of_sublist; eauto.
  - intros k Hk. rewrite Hjobs, lookup_insert_ne; [|by intros ->].
    eapply (c_running s H), elem_of_sublist; eauto.
  - eapply sublist_NoDup; [apply (c_nodup s H)|done].
  - rewrite Ha, Hc. intros k Hk. apply (c_started s H).
    destruct Hk as [Hk|[Hk|Hk]]; eauto using elem_of_sublist.
Qed.

(** A handler that stores a job whose status is as waiting and as live as
    before, and at most adds children of started jobs. *)
Lemma consistent_touch s s' jobId job job' :
  consistent s →
  activeJobs s !! jobId = Some job →
  activeJobs s' = <[jobId:=job']> (activeJobs s) →
  (Job.status job = waiting → Job.status job' = waiting) →
  (live (Job.status job) = true → live (Job.status job') = true) →
  jobQueue s' = jobQueue s → runningJobs s' = runningJobs s →
  pending s' `sublist_of` pending s →
  (∀ k, k ∈ Child.jobId <$> children s' →
        k ∈ Child.jobId <$> children s ∨ k ∈ admitted s) →
  admitted s' = admitted s → submitted s' = submitted s →
  consistent s'.
Proof.
  intros H Hjob Hjobs Hw Hl Hq Hr Hp Hc Ha Hs. split.
  - eapply fifo_shrink; [apply (c_fifo s H)|done..|by rewrite Hq].
  - rewrite Hs. apply (c_fresh s H).
  - intros k Hk. rewrite Hq in Hk. destruct (c_queue s H k Hk) as (j & Hj & Hst).
    rewrite Hjobs, lookup_insert. case_decide; [|eauto].
    subst. exists job'. split; [done|]. apply Hw. congruence.
  - intros k Hk. rewrite Hr in Hk. destruct (c_running s H k Hk) as (j & Hj & Hst).
    rewrite Hjobs, lookup_insert. case_decide; [|eauto].
    subst. exists job'. split; [done|]. apply Hl. congruence.
  - rewrite Hr. apply (c_nodup s H).
  - rewrite Ha, Hr. intros k [Hk|[Hk|Hk]].
    + apply (c_started s H). auto.
    + apply (c_started s H). eauto using elem_of_sublist.
    + destruct (Hc k Hk); [|done]. apply (c_started s H). auto.
Qed.

Lemma consistent_dequeue s queue jobId :
  consistent s → jobQueue s = jobId :: queue →
  consistent (withQueue (λ _, queue) s).
Proof.
  intros H Hq. split; simpl; try apply H.
  - eapply fifo_shrink; [apply (c_fifo s H)|done..|].
    simpl. rewrite Hq. by apply sublist_cons.
  - intros k Hk. apply (c_queue s H). rewrite Hq. by right.
Qed.

Lemma processQueueFrom_consistent sys now queue s :
  jobQueue s = queue → consistent s → consistent (processQueueFrom sys now queue s).
Proof.
  revert s. induction queue as [|jobId queue IH]; intros s Hq H; simpl; [done|].
  destruct (_ <? _); [|done].
  pose proof (consistent_dequeue s queue jobId H Hq) as Hd.
  destruct (activeJobs s !! jobId) as [job|] eqn:Hjob; [|by apply IH].
  case_decide as Hst; [|by apply IH].
  set (s1 := withRunning _ _).
  destruct (executeJob_logs now jobId s1 job Hjob) as (Ha & Hq' & Hs).
  apply IH; [by rewrite Hq'|].
  pose proof (consistent_NoDup s H) as Hnd. rewrite Hq in Hnd.
  apply NoDup_app in Hnd as (_ & _ & [Hfresh _]%NoDup_cons).
  assert (jobId ∉ runningJobs s) as Hnr.
  { eapply not_live_not_running; [done..|]. by rewrite Hst. }
  unfold executeJob. change (activeJobs s1) with (activeJobs s). rewrite Hjob.
  split; simpl.
  - pose proof (c_fifo s H) as Hf. unfold fifo in *. simpl.
    rewrite <- app_assoc. simpl. by rewrite Hq in Hf.
  - apply H.
  - intros k Hk. rewrite lookup_insert_ne; [|by intros ->].
    apply (c_queue s H). rewrite Hq. by right.
  - intros k [Hk| ->%list_elem_of_singleton]%elem_of_app.
    + rewrite lookup_insert. case_decide; [by eexists|]. by apply (c_running s H).
    + rewrite lookup_insert_eq. by eexists.
  - apply NoDup_app. split_and!; [apply H| |apply NoDup_singleton].
    intros k Hk ->%list_elem_of_singleton. done.
  - intros k Hk. apply elem_of_app.
    destruct (decide (k = jobId)) as [->|Hne]; [right; by apply list_elem_of_singleton|].
    left. apply (c_started s H).
    rewrite !elem_of_app, !list_elem_of_singleton in Hk.
    destruct Hk as [[?|?]|[[?|?]|?]]; auto; done.
Qed.

Lemma processQueue_consistent sys now s :
  consistent s → consistent (processQueue sys now s).
Proof. by apply processQueueFrom_consistent. Qed.

Lemma sublist_without x l : without x l `sublist_of` l.
Proof. apply sublist_filter. Qed.

Lemma not_elem_of_without x l : x ∉ without x l.
Proof. rewrite elem_of_without. by intros [? _]. Qed.

Lemma executeJobResume_consistent sys now env s :
  consistent s → consistent (executeJobResume sys now env s).
Proof.
  intros H. unfold executeJobResume. destruct (pending s) as [|jobId rest] eqn:Hp; [done|].
  simpl. destruct (activeJobs s !! jobId) as [job|] eqn:Hjob.
  2:{ split; simpl; try apply H. intros k Hk. apply (c_started s H).
      rewrite Hp, elem_of_cons. destruct Hk as [?|[?|?]]; auto. }
  assert (jobId ∈ admitted s) as Hadm.
  { apply (c_started s H). rewrite Hp. right; left. apply list_elem_of_here. }
  assert (∀ message, consistent (executeJobCatch sys now jobId job message
            (withPending (λ _, rest) s))) as Hcatch.
  { intros message. apply processQueue_consistent.
    eapply consistent_retire; [exact H|reflexivity|done|done|..]; simpl; try done.
    - by apply admitted_not_queued.
    - apply sublist_without.
    - apply not_elem_of_without.
    - rewrite Hp. by apply sublist_cons. }
  destruct (buildFfmpegArgs _ _); [|done].
  destruct (binaryExists env); simpl; [|done].
  destruct (spawnThrows env); [done|].
  eapply consistent_touch; [exact H|exact Hjob|reflexivity|done|done|done|done|..]; simpl; try done.
  - rewrite Hp. by apply sublist_cons.
  - intros k. rewrite fmap_app, elem_of_app. simpl. rewrite list_elem_of_singleton.
    intros [?| ->]; auto.
Qed.

Lemma startJob_consistent sys now env config s :
  uuid env ∉ submitted s →
  consistent s → consistent (settle s (startJob sys now env config s)).
Proof.
  intros Hfresh H. unfold startJob. destruct (inputExists env); simpl; [|done].
  destruct (mkdirThrows env); simpl; [done|].
  apply processQueue_consistent.
  assert (∀ k, k ∈ admitted s → k ≠ uuid env) as Hne.
  { intros k Hk ->. apply Hfresh. eapply elem_of_sublist; [|apply (c_fifo s H)].
    apply elem_of_app. by left. }
  split; simpl.
  - pose proof (c_fifo s H) as Hf. unfold fifo in *. simpl. rewrite app_assoc.
    by apply sublist_app.
  - apply NoDup_app. split_and!; [apply H| |apply NoDup_singleton].
    intros k Hk ->%list_elem_of_singleton. done.
  - intros k [Hk| ->%list_elem_of_singleton]%elem_of_app.
    + rewrite lookup_insert. case_decide; [by eexists|]. by apply (c_queue s H).
    + rewrite lookup_insert_eq. by eexists.
  - intros k Hk. rewrite lookup_insert_ne; [by apply (c_running s H)|].
    intros <-. eapply Hne; [|done]. apply (c_started s H). auto.
  - apply H.
  - apply H.
Qed.

Lemma cancelJob_consistent sys now jobId s :
  consistent s → consistent (settle s (cancelJob sys now jobId s)).
Proof.
  intros H. unfold cancelJob. destruct (activeJobs s !! jobId) as [job|]; simpl; [|done].
  apply processQueue_consistent.
  eapply consistent_retire; [exact H|reflexivity|done|done|..]; simpl; try done.
  - apply sublist_spliceOut.
  - apply not_elem_of_spliceOut.
    pose proof (consistent_NoDup s H) as Hnd. by apply NoDup_app in Hnd as (_ & _ & ?).
  - apply sublist_spliceOut.
  - apply not_elem_of_spliceOut, H.
Qed.

Lemma pauseJob_consistent jobId s :
  consistent s → consistent (settle s (pauseJob jobId s)).
Proof.
  intros H. unfold pauseJob. destruct (activeJobs s !! jobId) as [job|] eqn:Hjob; simpl; [|done].
  destruct (Job.status job) eqn:Hst, (Job.process job); simpl; try done.
  eapply consistent_touch; [exact H|exact Hjob|reflexivity|..]; simpl; try done; auto.
  by rewrite Hst.
Qed.

Lemma resumeJob_consistent jobId s :
  consistent s → consistent (settle s (resumeJob jobId s)).
Proof.
  intros H. unfold resumeJob. destruct (activeJobs s !! jobId) as [job|] eqn:Hjob; simpl; [|done].
  destruct (Job.status job) eqn:Hst, (Job.process job); simpl; try done.
  eapply consistent_touch; [exact H|exact Hjob|reflexivity|..]; simpl; try done; auto.
  by rewrite Hst.
Qed.

Lemma clearCompletedJobs_consistent s :
  consistent s → consistent (clearCompletedJobs s).
Proof.
  intros H. split; simpl; try apply H.
  - intros k Hk. destruct (c_queue s H k Hk) as (j & Hj & Hst).
    exists j. split; [|done]. apply map_lookup_filter_Some. simpl. by rewrite Hst.
  - intros k Hk. destruct (c_running s H k Hk) as (j & Hj & Hst).
    exists j. split; [|done]. apply map_lookup_filter_Some. simpl.
    split; [done|]. by destruct (Job.status j).
Qed.

Lemma cleanup_consistent s : consistent s → consistent (cleanup s).
Proof.
  intros H. split; simpl.
  - eapply fifo_shrink; [apply (c_fifo s H)|done..|]. apply sublist_nil_l.
  - apply H.
  - by intros k ?%elem_of_nil.
  - by intros k ?%elem_of_nil.
  - apply NoDup_nil_2.
  - intros k [?%elem_of_nil|Hk]; [done|]. apply (c_started s H). auto.
Qed.

Lemma parseProgress_consistent now jobId stderr s :
  consistent s → consistent (parseProgress now jobId stderr s).
Proof.
  intros H. unfold parseProgress.
  destruct (activeJobs s !! jobId) as [job|] eqn:Hjob; [|done].
  eapply consistent_touch; [exact H|exact Hjob|reflexivity|..]; simpl; try done; auto;
    by destruct (_ ≫= _).
Qed.

Lemma onData_consistent now h chunk s :
  consistent s → consistent (onData now h chunk s).
Proof.
  intros H. unfold onData. destruct (children s !! h) as [c|] eqn:Hc; [|done].
  apply parseProgress_consistent.
  split; simpl; try apply H.
  intros k Hk. apply (c_started s H).
  destruct Hk as [Hk|[Hk|Hk]]; auto. right; right.
  apply list_elem_of_fmap in Hk as (c' & -> & Hin).
  apply list_elem_of_lookup in Hin as [i Hi].
  destruct (decide (i = h)) as [->|Hne].
  - rewrite list_lookup_insert_eq in Hi by (by eapply lookup_lt_Some).
    injection Hi as <-. simpl. apply list_elem_of_fmap. exists c.
    split; [done|]. by eapply list_elem_of_lookup_2.
  - rewrite list_lookup_insert_ne in Hi by done.
    apply list_elem_of_fmap. exists c'. split; [done|]. by eapply list_elem_of_lookup_2.
Qed.

Lemma child_started s h c :
  consistent s → children s !! h = Some c → Child.jobId c ∈ admitted s.
Proof.
  intros H Hc. apply (c_started s H). right; right.
  apply list_elem_of_fmap. exists c. split; [done|]. by eapply list_elem_of_lookup_2.
Qed.

Lemma onClose_consistent sys now h code outputStat inputStat s :
  consistent s → consistent (onClose sys now h code outputStat inputStat s).
Proof.
  intros H. unfold onClose. destruct (children s !! h) as [c|] eqn:Hc; [|done].
  destruct (activeJobs s !! Child.jobId c) as [job|]; [|done].
  pose proof (child_started s h c H Hc) as Hadm.
  case_decide; destruct inputStat; try apply processQueue_consistent;
    (eapply consistent_retire; [exact H|reflexivity|..]; simpl;
     first [ done
           | by destruct outputStat
           | by apply admitted_not_queued
           | apply sublist_without
           | apply not_elem_of_without ]).
Qed.

Lemma onError_consistent sys now h message s :
  consistent s → consistent (onError sys now h message s).
Proof.
  intros H. unfold onError. destruct (children s !! h) as [c|] eqn:Hc; [|done].
  destruct (activeJobs s !! Child.jobId c) as [job|]; [|done].
  pose proof (child_started s h c H Hc) as Hadm.
  apply processQueue_consistent.
  eapply consistent_retire; [exact H|reflexivity|..]; simpl; try done.
  - by apply admitted_not_queued.
  - apply sublist_without.
  - apply not_elem_of_without.
Qed.

Lemma step_consistent sys s turn :
  (∀ k, k ∈ uuids [turn] → k ∉ submitted s) →
  consistent s → consistent (step sys s turn).
Proof.
  intros Hfresh H. destruct turn as [now op]. unfold step.
  destruct op, (pending s) eqn:Hp;
    auto using executeJobResume_consistent, cancelJob_consistent,
      pauseJob_consistent, resumeJob_consistent, clearCompletedJobs_consistent,
      cleanup_consistent, onData_consistent, onClose_consistent, onError_consistent.
  apply startJob_consistent; [|done]. apply Hfresh. apply list_elem_of_here.
Qed.

Lemma init_consistent : consistent init.
Proof.
  split; simpl; try apply NoDup_nil_2; try (by intros k ?%elem_of_nil).
  - unfold fifo. simpl. done.
  - intros k [?%elem_of_nil|[?%elem_of_nil|?%elem_of_nil]]; done.
Qed.

Lemma sameOutputs_refl s : sameOutputs s s.
Proof. by repeat split. Qed.

Lemma sameOutputs_trans s1 s2 s3 :
  sameOutputs s1 s2 → sameOutputs s2 s3 → sameOutputs s1 s3.
Proof.
  intros (?&?&?&?&?&?) (?&?&?&?&?&?). repeat split; congruence.
Qed.

Lemma executeJob_sameOutputs now jobId s : sameOutputs s (executeJob now jobId s).
Proof. unfold executeJob. destruct (_ !! _); by repeat split. Qed.

Lemma processQueueFrom_sameOutputs sys now queue s :
  sameOutputs s (processQueueFrom sys now queue s).
Proof.
  revert s. induction queue as [|jobId queue IH]; intros s; simpl;
    [apply sameOutputs_refl|].
  destruct (_ <? _); [|apply sameOutputs_refl].
  destruct (activeJobs s !! jobId) as [job|];
    [case_decide|]; (eapply sameOutputs_trans; [|apply IH]); try by repeat split.
  eapply sameOutputs_trans; [|apply executeJob_sameOutputs]. by repeat split.
Qed.

Lemma processQueue_sameOutputs sys now s : sameOutputs s (processQueue sys now s).
Proof. apply processQueueFrom_sameOutputs. Qed.

Lemma processQueue_submitted sys now s : submitted (processQueue sys now s) = submitted s.
Proof. apply processQueue_sameOutputs. Qed.

(** Only [startJob] submits, and only its own id. *)
Lemma step_submitted sys s turn k :
  k ∈ submitted (step sys s turn) → k ∈ submitted s ∨ k ∈ uuids [turn].
Proof.
  destruct turn as [now op]. unfold step.
  destruct op, (pending s) eqn:Hp; simpl; auto.
  - unfold startJob. destruct (inputExists env); simpl; auto.
    destruct (mkdirThrows env); simpl; auto.
    rewrite processQueue_submitted. simpl.
    rewrite elem_of_app, !list_elem_of_singleton. auto.
  - unfold cancelJob. destruct (_ !! _); simpl; auto.
    rewrite processQueue_submitted. auto.
  - unfold pauseJob. destruct (_ !! _) as [job|]; simpl; auto.
    destruct (Job.status job), (Job.process job); auto.
  - unfold resumeJob. destruct (_ !! _) as [job|]; simpl; auto.
    destruct (Job.status job), (Job.process job); auto.
  - unfold onData, parseProgress. destruct (_ !! _); auto. simpl.
    destruct (_ !! _); auto.
  - unfold onClose. destruct (_ !! _); auto. destruct (_ !! _); auto.
    case_decide; destruct inputStat; simpl; auto; rewrite processQueue_submitted; auto.
  - unfold onError. destruct (_ !! _); auto. destruct (_ !! _); auto.
    rewrite processQueue_submitted. auto.
  - unfold executeJobResume. rewrite Hp. auto.
  - unfold executeJobResume. rewrite Hp. simpl. destruct (_ !! _); auto.
    unfold executeJobCatch.
    destruct (buildFfmpegArgs _ _); [|rewrite processQueue_submitted; auto].
    destruct (binaryExists env); simpl; [|rewrite processQueue_submitted; auto].
    destruct (spawnThrows env); [rewrite processQueue_submitted; auto|auto].
Qed.

Lemma exec_snoc sys turns turn s :
  exec sys (turns ++ [turn]) s = step sys (exec sys turns s) turn.
Proof. apply foldl_snoc. Qed.

Lemma uuids_snoc turns turn : uuids (turns ++ [turn]) = uuids turns ++ uuids [turn].
Proof. apply omap_app. Qed.

Lemma exec_submitted sys turns k :
  k ∈ submitted (exec sys turns init) → k ∈ uuids turns.
Proof.
  induction turns as [|turn turns IH] using rev_ind; [done|].
  rewrite exec_snoc, uuids_snoc, elem_of_app.
  intros [?|?]%step_submitted; auto.
Qed.

Lemma exec_consistent sys turns :
  NoDup (uuids turns) → consistent (exec sys turns init).
Proof.
  induction turns as [|turn turns IH] using rev_ind; intros Hnd;
    [apply init_consistent|].
  rewrite uuids_snoc in Hnd. apply NoDup_app in Hnd as (Hnd & Hfresh & _).
  rewrite exec_snoc. apply step_consistent; [|by apply IH].
  intros k Hk Hin%exec_submitted. by eapply Hfresh.
Qed.

(** With the queue empty or every slot taken, the admission loop does
    nothing. *)
Lemma processQueue_idle sys now s :
  jobQueue s = [] ∨ maxParallelJobs sys ≤ length (runningJobs s) →
  processQueue sys now s = s.
Proof.
  unfold processQueue. intros [->|Hfull]; [done|].
  destruct (jobQueue s); simpl; [done|].
  destruct (Nat.ltb_spec (length (runningJobs s)) (maxParallelJobs sys)); [lia|done].
Qed.

Lemma withQueue_id f s : f (jobQueue s) = jobQueue s → withQueue f s = s.
Proof. destruct s; unfold withQueue, withRunning; simpl. by intros ->. Qed.

Lemma withRunning_id f s : f (runningJobs s) = runningJobs s → withRunning f s = s.
Proof. destruct s; unfold withQueue, withRunning; simpl. by intros ->. Qed.

(** C3, as the code has it. On a job already completed, failed or
    cancelled, [cancelJob] reports no error (it rejects only an id that is
    not in the registry); the cancellation removes nothing from the queue
    or from the running list, adds nothing to the history, leaves every
    other job as it was and leaves the configuration, progress, process
    handle, start time, error and output size of the job itself as they
    were; the admission pass that ends every cancellation then runs, and
    does nothing when the queue is empty or every slot is taken. *)
Theorem cancelJob_terminal_accepted
    (sys : Sys) (turns : list (Z * Op)) (now : Z) (jobId : string) (job : Job.t) :
  NoDup (uuids turns) →
  let s := exec sys turns init in
  activeJobs s !! jobId = Some job →
  terminal (Job.status job) = true →
  ∃ s1 job1,
    cancelJob sys now jobId s = inr (processQueue sys now s1) ∧
    (jobQueue s = [] ∨ maxParallelJobs sys ≤ length (runningJobs s) →
     processQueue sys now s1 = s1) ∧
    jobQueue s1 = jobQueue s ∧ runningJobs s1 = runningJobs s ∧
    pending s1 = pending s ∧ children s1 = children s ∧
    history s1 = history s ∧ faults s1 = faults s ∧
    (∀ k, k ≠ jobId → activeJobs s1 !! k = activeJobs s !! k) ∧
    activeJobs s1 !! jobId = Some job1 ∧
    Job.id job1 = Job.id job ∧ Job.config job1 = Job.config job ∧
    Job.process job1 = Job.process job ∧ Job.progress job1 = Job.progress job ∧
    Job.startTime job1 = Job.startTime job ∧ Job.error job1 = Job.error job ∧
    Job.outputSize job1 = Job.outputSize job.
Proof.
  intros Hnd s Hjob Hterm.
  pose proof (exec_consistent sys turns Hnd) as H. fold s in H.
  assert (jobId ∉ jobQueue s) as Hq.
  { eapply not_waiting_not_queued; [done..|]. by destruct (Job.status job). }
  assert (jobId ∉ runningJobs s) as Hr.
  { eapply not_live_not_running; [done..|]. by destruct (Job.status job). }
  set (s1 := emit (Completed jobId false (Some "Job cancelled"))
               (withJobs (insert jobId (Job.setStatus cancelled job))
                  (kill (Job.process job) SIGKILL s))).
  exists s1, (Job.setStatus cancelled job).
  split.
  { unfold cancelJob. rewrite Hjob. do 2 f_equal.
    rewrite withRunning_id, withQueue_id; [done|simpl; by apply spliceOut_id..]. }
  split; [intros Hidle; apply processQueue_idle; exact Hidle|].
  split_and!; try done.
  - intros k Hk. simpl. by rewrite lookup_insert_ne.
  - simpl. by rewrite lookup_insert_eq.
Qed.

Lemma cancelJob_terminal_accepted_witness :
  NoDup (uuids completedRun) ∧
  ∃ s', cancelJob sampleSys 9 "a" (exec sampleSys completedRun init) = inr s'.
Proof.
  assert (NoDup (uuids completedRun)) as Hnd
    by (apply (bool_decide_eq_true_1 (NoDup (uuids completedRun))); vm_compute; reflexivity).
  split; [exact Hnd|].
  destruct (cancelJob_terminal_accepted sampleSys completedRun 9 "a" completedJob Hnd)
    as (s1 & job1 & Heq & _); [vm_compute; reflexivity|reflexivity|].
  eexists. exact Heq.
Defined.

(** C3 fails as stated: a completed job is cancelled without an error,
    its recorded status becomes ['cancelled'] and a further completion
    event is emitted. *)
Lemma cancelJob_terminal_counterexample :
  let s := exec sampleSys completedRun init in
  Job.status <$> activeJobs s !! "a" = Some completed ∧
  match cancelJob sampleSys 9 "a" s with
  | inl _ => False
  | inr s' =>
      Job.status <$> activeJobs s' !! "a" = Some cancelled ∧
      emitted s' = emitted s ++ [Completed "a" false (Some "Job cancelled")]
  end.
Proof. vm_compute. repeat split. Qed.

(** ** Pausing and resuming *)

(** C7, as the code has it. [pauseJob] acts only on a running job that
    has a process: it sends SIGSTOP to it and records ['paused'];
    [resumeJob] acts only on a paused job that has a process: it sends
    SIGCONT and records ['running']. In any other state of the job both
    return normally and change nothing; both reject an id that is not in
    the registry with "Job not found". *)
Theorem pauseJob_resumeJob_transitions (s : State) (jobId : string) :
  match activeJobs s !! jobId with
  | None =>
      pauseJob jobId s = inl "Job not found" ∧ resumeJob jobId s = inl "Job not found"
  | Some job =>
      (∀ h, Job.status job = running → Job.process job = Some h →
         ∃ s', pauseJob jobId s = inr s' ∧
               activeJobs s' = <[jobId:=Job.setStatus paused job]> (activeJobs s) ∧
               signals s' = signals s ++ [(h, SIGSTOP)] ∧
               jobQueue s' = jobQueue s ∧ runningJobs s' = runningJobs s ∧
               emitted s' = emitted s ∧ history s' = history s) ∧
      (Job.status job ≠ running ∨ Job.process job = None → pauseJob jobId s = inr s) ∧
      (∀ h, Job.status job = paused → Job.process job = Some h →
         ∃ s', resumeJob jobId s = inr s' ∧
               activeJobs s' = <[jobId:=Job.setStatus running job]> (activeJobs s) ∧
               signals s' = signals s ++ [(h, SIGCONT)] ∧
               jobQueue s' = jobQueue s ∧ runningJobs s' = runningJobs s ∧
               emitted s' = emitted s ∧ history s' = history s) ∧
      (Job.status job ≠ paused ∨ Job.process job = None → resumeJob jobId s = inr s)
  end.
Proof.
  unfold pauseJob, resumeJob. destruct (activeJobs s !! jobId) as [job|]; [|done].
  split_and!.
  - intros h -> ->. by eexists.
  - intros [Hst| ->]; destruct (Job.status job); try done; by destruct (Job.process job).
  - intros h -> ->. by eexists.
  - intros [Hst| ->]; destruct (Job.status job); try done; by destruct (Job.process job).
Qed.

Lemma pauseJob_resumeJob_transitions_witness :
  let s := exec sampleSys queuedRun init in
  (∃ s', pauseJob "a" s = inr s') ∧ resumeJob "a" s = inr s.
Proof.
  intros s. pose proof (pauseJob_resumeJob_transitions s "a") as H.
  destruct (activeJobs s !! "a") as [job|] eqn:Hjob; [|by vm_compute in Hjob].
  assert (Job.status job = running ∧ Job.process job = Some 0) as [Hst Hpr].
  { vm_compute in Hjob. injection Hjob as <-. split; reflexivity. }
  destruct H as (Hp & _ & _ & Hr). split.
  - destruct (Hp 0 Hst Hpr) as (s' & Heq & _). by exists s'.
  - apply Hr. left. rewrite Hst. discriminate.
Defined.

(** C7 fails as stated: pausing or resuming a job that is still waiting
    reports no error; both calls return normally, the state unchanged. *)
Lemma pauseJob_waiting_counterexample :
  let s := exec sampleSys queuedRun init in
  Job.status <$> activeJobs s !! "c" = Some waiting ∧
  pauseJob "c" s = inr s ∧ resumeJob "c" s = inr s.
Proof. vm_compute. repeat split. Qed.

(** ** Completion and failure of a child *)

(** The admission loop touches waiting jobs only. *)
Lemma processQueueFrom_keeps sys now queue s k job :
  activeJobs s !! k = Some job → Job.status job ≠ waiting →
  activeJobs (processQueueFrom sys now queue s) !! k = Some job.
Proof.
  revert s. induction queue as [|jobId queue IH]; intros s Hk Hst; simpl; [done|].
  destruct (_ <? _); [|done].
  destruct (activeJobs s !! jobId) as [j|] eqn:Hj; [|by apply IH].
  case_decide as Hw; [|by apply IH].
  apply IH; [|done]. unfold executeJob. simpl. rewrite Hj. simpl.
  rewrite lookup_insert_ne; [done|]. intros ->. congruence.
Qed.

Lemma processQueue_keeps sys now s k job :
  activeJobs s !! k = Some job → Job.status job ≠ waiting →
  activeJobs (processQueue sys now s) !! k = Some job.
Proof. apply processQueueFrom_keeps. Qed.

(** C5, as the code has it. When the child of a job exits with code zero
    and the input file can still be measured, the job is recorded as
    completed with progress 100, and one history item is added, a
    success, with the size of the input, the size of the output (the
    measured one, else the one recorded on the job, else 0) and their
    quotient as the compression ratio when the input size is positive,
    and 1 when it is zero; sizes 100,000,000 and 40,000,000 give 0.4. *)
Theorem onClose_success_records_ratio
    (sys : Sys) (now : Z) (h : nat) (c : Child.t) (job : Job.t)
    (outputStat : option Z) (inputSize : Z) (s : State) :
  children s !! h = Some c →
  activeJobs s !! Child.jobId c = Some job →
  let s' := onClose sys now h (Some 0%Z) outputStat (Some inputSize) s in
  let outputSize :=
    match outputStat with Some n => n | None => default 0%Z (Job.outputSize job) end in
  (∃ job', activeJobs s' !! Child.jobId c = Some job' ∧
           Job.status job' = completed ∧ Job.progress job' = 100%Q) ∧
  ∃ entry, history s' = history s ++ [entry] ∧
    History.status entry = success ∧
    History.originalSize entry = inputSize ∧
    History.compressedSize entry = outputSize ∧
    ((0 < inputSize)%Z →
       History.compressionRatio entry = (inject_Z outputSize / inject_Z inputSize)%Q) ∧
    ((inputSize ≤ 0)%Z → History.compressionRatio entry = 1%Q) ∧
    (inputSize = 100000000%Z → outputStat = Some 40000000%Z →
       (History.compressionRatio entry == 0.4)%Q).
Proof.
  intros Hc Hjob s' outputSize. subst s'. unfold onClose. rewrite Hc, Hjob.
  rewrite decide_True by done.
  assert (default 0%Z (Job.outputSize
            match outputStat with
            | Some n => Job.setOutputSize n (Job.setProgress 100 (Job.setStatus completed job))
            | None => Job.setProgress 100 (Job.setStatus completed job)
            end) = outputSize) as Hout by (by destruct outputStat).
  match goal with |- context [processQueue sys now ?t] =>
    destruct (processQueue_sameOutputs sys now t) as (_ & Hh & _)
  end.
  split.
  - eexists. split.
    + apply processQueue_keeps; [simpl; apply lookup_insert_eq|by destruct outputStat].
    + by destruct outputStat.
  - eexists. split; [rewrite Hh; reflexivity|].
    simpl. rewrite Hout. split_and!; try done.
    + intros Hpos. by rewrite (proj2 (Z.ltb_lt _ _) Hpos).
    + intros Hle. by rewrite (proj2 (Z.ltb_ge _ _) Hle).
    + intros -> Heq. subst outputSize. rewrite Heq. reflexivity.
Qed.

Lemma onClose_success_records_ratio_witness :
  let s := exec sampleSys [(1, submit "a"); (1, spawned)]%Z init in
  ∃ entry, history (onClose sampleSys 7 0 (Some 0%Z) (Some 40000000%Z)
                      (Some 100000000%Z) s) = history s ++ [entry] ∧
           (History.compressionRatio entry == 0.4)%Q.
Proof.
  intros s.
  assert (∃ c, children s !! 0 = Some c) as [c Hc] by (vm_compute; by eexists).
  destruct (activeJobs s !! Child.jobId c) as [job|] eqn:Hjob.
  2:{ exfalso. vm_compute in Hc. injection Hc as <-. by vm_compute in Hjob. }
  destruct (onClose_success_records_ratio sampleSys 7 0 c job (Some 40000000%Z)
              100000000%Z s Hc Hjob) as (_ & entry & Hh & _ & _ & _ & _ & _ & Hr).
  exists entry. split; [exact Hh|]. by apply Hr.
Defined.

(** C5 fails as stated: with an input file of size 0 and an output of 7
    bytes the ratio recorded is 1, which is not the quotient of the two
    sizes recorded beside it. *)
Lemma onClose_empty_input_counterexample :
  let s := exec sampleSys
             [(1, submit "a"); (1, spawned);
              (7, OnClose 0 (Some 0) (Some 7) (Some 0))]%Z init in
  match history s with
  | [entry] =>
      History.status entry = success ∧
      History.originalSize entry = 0%Z ∧ History.compressedSize entry = 7%Z ∧
      History.compressionRatio entry = 1%Q ∧
      ¬ (History.compressionRatio entry
         == inject_Z (History.compressedSize entry) / inject_Z (History.originalSize entry))%Q ∧
      ¬ (History.compressionRatio entry * inject_Z (History.originalSize entry)
         == inject_Z (History.compressedSize entry))%Q
  | _ => False
  end.
Proof. vm_compute. repeat split; intros H; discriminate H. Qed.

Lemma length_string_of_list_ascii l : String.length (string_of_list_ascii l) = length l.
Proof. induction l as [|a l IH]; simpl; [done|]. by rewrite IH. Qed.

Lemma string_of_list_ascii_app l k :
  string_of_list_ascii (l ++ k) = string_of_list_ascii l +:+ string_of_list_ascii k.
Proof. induction l as [|a l IH]; simpl; [done|]. by rewrite IH. Qed.

Lemma sliceLast_length n s : String.length (Js.sliceLast n s) ≤ n.
Proof.
  unfold Js.sliceLast. rewrite length_string_of_list_ascii, length_drop. lia.
Qed.

Lemma sliceLast_suffix n s :
  ∃ front, s = front +:+ Js.sliceLast n s.
Proof.
  unfold Js.sliceLast. set (l := list_ascii_of_string s).
  exists (string_of_list_ascii (take (length l - n) l)).
  rewrite <- string_of_list_ascii_app, take_drop. unfold l.
  by rewrite string_of_list_ascii_of_string.
Qed.

(** C6, as the code has it. A child that exits with a code other than
    zero, the input file still measurable, leaves its job failed, the
    error detail ending in the last 500 characters at most of the child's
    output; one history item is added, a failure with compressed size 0
    and ratio 0 carrying that detail, a completion event carries it too,
    and no exception escapes. An ['error'] event of the child leaves the
    job failed with the message of the error as its detail and emits a
    completion event carrying it; no exception escapes. *)
Theorem runtime_failure_recorded
    (sys : Sys) (now : Z) (h : nat) (c : Child.t) (job : Job.t) (s : State) :
  children s !! h = Some c →
  activeJobs s !! Child.jobId c = Some job →
  (∀ code outputStat inputSize, code ≠ Some 0%Z →
     let s' := onClose sys now h code outputStat (Some inputSize) s in
     let tail := Js.sliceLast 500 (Child.stderr c) in
     let detail := "FFmpeg exited with code " +:+ codeText code +:+ ". Error: " +:+ tail in
     String.length tail ≤ 500 ∧ (∃ front, Child.stderr c = front +:+ tail) ∧
     (∃ job', activeJobs s' !! Child.jobId c = Some job' ∧
              Job.status job' = failed ∧ Job.error job' = Some detail) ∧
     (∃ entry, history s' = history s ++ [entry] ∧
               History.status entry = failure ∧
               History.originalSize entry = inputSize ∧
               History.compressedSize entry = 0%Z ∧
               History.compressionRatio entry = 0%Q ∧
               History.error entry = Some detail) ∧
     emitted s' = emitted s ++ [Completed (Child.jobId c) false (Some detail); Log error now] ∧
     faults s' = faults s) ∧
  (∀ message,
     let s' := onError sys now h message s in
     let detail := "FFmpeg process error: " +:+ message in
     (∃ job', activeJobs s' !! Child.jobId c = Some job' ∧
              Job.status job' = failed ∧ Job.error job' = Some detail) ∧
     emitted s' = emitted s ++ [Completed (Child.jobId c) false (Some detail)] ∧
     faults s' = faults s).
Proof.
  intros Hc Hjob. split.
  - intros code outputStat inputSize Hcode s' tail detail. subst s'.
    unfold onClose. rewrite Hc, Hjob. rewrite decide_False by done.
    split; [apply sliceLast_length|]. split; [apply sliceLast_suffix|].
    match goal with |- context [processQueue sys now ?t] =>
      destruct (processQueue_sameOutputs sys now t) as (He & Hh & _ & Hf & _)
    end.
    split_and!.
    + eexists. split; [apply processQueue_keeps; [simpl; apply lookup_insert_eq|done]|].
      by split.
    + eexists. rewrite Hh. split; [reflexivity|]. by repeat split.
    + rewrite He. simpl. by rewrite <- app_assoc.
    + by rewrite Hf.
  - intros message s' detail. subst s'. unfold onError. rewrite Hc, Hjob.
    match goal with |- context [processQueue sys now ?t] =>
      destruct (processQueue_sameOutputs sys now t) as (He & _ & _ & Hf & _)
    end.
    split_and!.
    + eexists. split; [apply processQueue_keeps; [simpl; apply lookup_insert_eq|done]|].
      by split.
    + by rewrite He.
    + by rewrite Hf.
Qed.

Lemma runtime_failure_recorded_witness :
  let s := exec sampleSys erroredRun init in
  (∃ entry, history (onClose sampleSys 3 0 (Some 1%Z) None (Some 100000000%Z) s)
            = history s ++ [entry] ∧ History.compressionRatio entry = 0%Q) ∧
  faults (onError sampleSys 3 0 "spawn EACCES" s) = faults s.
Proof.
  intros s.
  assert (∃ c, children s !! 0 = Some c) as [c Hc] by (vm_compute; by eexists).
  destruct (activeJobs s !! Child.jobId c) as [job|] eqn:Hjob.
  2:{ exfalso. vm_compute in Hc. injection Hc as <-. by vm_compute in Hjob. }
  destruct (runtime_failure_recorded sampleSys 3 0 c job s Hc Hjob) as [Hclose Herr].
  split.
  - destruct (Hclose (Some 1%Z) None 100000000%Z ltac:(discriminate))
      as (_ & _ & _ & (entry & Hh & _ & _ & _ & Hr & _) & _).
    by exists entry.
  - apply (Herr "spawn EACCES").
Defined.

(** C6 fails as stated: after an ['error'] event of a child that had
    written output, the job is failed with the message of the error as
    its detail, not a slice of that output, and nothing has been added to
    the history. *)
Lemma onError_counterexample :
  let s := exec sampleSys (erroredRun ++ [(3%Z, OnError 0 "spawn EACCES")]) init in
  Child.stderr <$> children s !! 0 = Some "Conversion failed!" ∧
  Job.status <$> activeJobs s !! "a" = Some failed ∧
  (activeJobs s !! "a" ≫= Job.error) = Some "FFmpeg process error: spawn EACCES" ∧
  history s = [] ∧
  emitted s = [Progress (JobProgress.mk "a" "in.mov" running 0 None None None None None None);
               Completed "a" false (Some "FFmpeg process error: spawn EACCES")].
Proof. vm_compute. repeat split. Qed.

(** ** Overrides, shutdown and the planned bitrate *)

(** C8, as the code has it. With [customSettings] given, the preset the
    arguments are built from is the chosen preset with the overrides
    applied key by key at the top level: a key the overrides have wins
    with its value, whole ([video] and [audio] objects are replaced, not
    merged), a key they lack keeps the preset's value; the arguments are
    those of a job configured with that preset and no overrides. *)
Theorem effectivePreset_top_level_merge
    (win32 : bool) (config : Config.t) (c : Partial.t) :
  Config.customSettings config = Some c →
  let p := Config.preset config in
  let e := effectivePreset config in
  (∀ v, Partial.id c = bound v → Preset.id e = v) ∧
  (Partial.id c = absent → Preset.id e = Preset.id p) ∧
  (∀ v, Partial.name c = bound v → Preset.name e = v) ∧
  (Partial.name c = absent → Preset.name e = Preset.name p) ∧
  (∀ v, Partial.video c = bound v → Preset.video e = v) ∧
  (Partial.video c = absent → Preset.video e = Preset.video p) ∧
  (∀ v, Partial.audio c = bound v → Preset.audio e = v) ∧
  (Partial.audio c = absent → Preset.audio e = Preset.audio p) ∧
  (∀ v, Partial.removeVideo c = bound v → Preset.removeVideo e = v) ∧
  (Partial.removeVideo c = absent → Preset.removeVideo e = Preset.removeVideo p) ∧
  (∀ v, Partial.removeAudio c = bound v → Preset.removeAudio e = v) ∧
  (Partial.removeAudio c = absent → Preset.removeAudio e = Preset.removeAudio p) ∧
  buildFfmpegArgs win32 config =
    buildFfmpegArgs win32
      (Config.mk (Config.inputPath config) (Config.outputPath config) e
         (Config.targetSize config) None).
Proof.
  intros Hc p e. subst p e. unfold buildFfmpegArgs, buildTwoPassArgs, effectivePreset.
  simpl. rewrite Hc. unfold spread. simpl.
  split_and!; try (intros v ->; reflexivity); try (intros ->; reflexivity).
  reflexivity.
Qed.

Lemma effectivePreset_top_level_merge_witness :
  Preset.audio (effectivePreset overriddenConfig) = Preset.audio githubPr.
Proof.
  pose proof (effectivePreset_top_level_merge false overriddenConfig plainVideo eq_refl)
    as (_ & _ & _ & _ & _ & _ & _ & Ha & _).
  by apply Ha.
Defined.

(** C8 fails as stated: the overrides set no quality factor, frame rate
    or size bound, the preset has all of them, and the effective preset
    has none; the arguments built lack [-crf], [-vf] and [-r]. *)
Lemma effectivePreset_nested_counterexample :
  (Preset.video githubPr ≫= Video.crf) = Some 23%Z ∧
  (Preset.video (effectivePreset overriddenConfig) ≫= Video.crf) = None ∧
  (Preset.video githubPr ≫= Video.fps) = Some 30%Z ∧
  (Preset.video (effectivePreset overriddenConfig) ≫= Video.fps) = None ∧
  buildFfmpegArgs false overriddenConfig =
    Some ["-i"; "in.mov"; "-c:v"; "libx264"; "-preset"; "veryfast";
          "-pix_fmt"; "yuv420p"; "-c:a"; "aac"; "-b:a"; "128k"; "-y"; "out.mp4"].
Proof. vm_compute. repeat split. Qed.

(** C9, on the code: a paused job keeps its child through [cleanup]. The
    job is paused and owns child 0; [cleanup] sends no signal at all, and
    the registry, the queue and the running list are emptied. *)
Theorem cleanup_spares_paused :
  let s := exec sampleSys pausedRun init in
  Job.status <$> activeJobs s !! "a" = Some paused ∧
  (activeJobs s !! "a" ≫= Job.process) = Some 0 ∧
  signals s = [(0, SIGSTOP)] ∧
  signals (cleanup s) = signals s ∧
  activeJobs (cleanup s) = ∅ ∧ jobQueue (cleanup s) = [] ∧ runningJobs (cleanup s) = [].
Proof. vm_compute. repeat split. Qed.

(** C4, on the code: the planned bitrate ignores the duration of the
    source. For 5 MB, 100 seconds and 128 kbps of audio the code plans
    8000 kbps where the formula of the specification, between the code's
    bounds 300 and 8000, gives 300; for 30,000 bytes, where neither bound
    is reached, the code plans 3872 kbps, the value for 60 seconds, and
    the formula gives 2272. *)
Theorem calculateTargetBitrate_ignores_duration :
  calculateTargetBitrate (5 * 1024 * 1024) "in.mov" targetSizePreset = "8000k" ∧
  Js.round (specTargetBitrate (5 * 8 * 1024) 100 128 300 8000) = 300%Z ∧
  Js.round (specTargetBitrate (inject_Z (5 * 1024 * 1024 * 8)) 100 128 300 8000) = 8000%Z ∧
  calculateTargetBitrate 30000 "in.mov" targetSizePreset = "3872k" ∧
  Js.round (specTargetBitrate (inject_Z (30000 * 8)) 100 128 300 8000) = 2272%Z ∧
  Js.round (specTargetBitrate (inject_Z (30000 * 8)) 60 128 300 8000) = 3872%Z.
Proof. vm_compute. repeat split. Qed.

(** ** Matching on a growing buffer *)

Module RegexFacts.
Import Regex.

Lemma span_spec p l x r :
  span p l = (x, r) → l = x ++ r ∧ Forall (λ a, p a = true) x.
Proof.
  revert x r. induction l as [|a l IH]; simpl; intros x r.
  - intros [= <- <-]. by split.
  - destruct (p a) eqn:Hp.
    + destruct (span p l) as [x' r'] eqn:Hs. intros [= <- <-].
      destruct (IH _ _ eq_refl) as [-> Hx]. split; [done|]. by constructor.
    + intros [= <- <-]. by split.
Qed.

(** A repetition that stopped before the end of the input stops at the
    same place when more input follows. *)
Lemma span_app p l x r c :
  span p l = (x, r) → r ≠ [] → span p (l ++ c) = (x, r ++ c).
Proof.
  revert x r. induction l as [|a l IH]; simpl; intros x r.
  - by intros [= <- <-].
  - destruct (p a) eqn:Hp.
    + destruct (span p l) as [x' r'] eqn:Hs. intros [= <- <-] Hr.
      by rewrite (IH _ _ eq_refl Hr).
    + by intros [= <- <-].
Qed.

Lemma fixedEnd_cons it its : its ≠ [] → fixedEnd (it :: its) = fixedEnd its.
Proof. unfold fixedEnd. destruct its; [done|]. by rewrite last_cons_cons. Qed.

(** On the empty input only optional items match, and nothing is left. *)
Lemma run_nil its segs r :
  run its [] = Some (segs, r) → r = [] ∧ (its = [] ∨ fixedEnd its = false).
Proof.
  revert segs r. induction its as [|it its IH]; simpl; intros segs r.
  - intros [= <- <-]. auto.
  - destruct it as [p|p|p]; [done|..];
      (destruct (run its []) as [[segs' r']|] eqn:Hrun; [|done];
       intros [= <- <-]; destruct (IH _ _ eq_refl) as [-> [-> | Hf]];
       (split; [done|right]); [done|by rewrite fixedEnd_cons by (by intros ->)]).
Qed.

(** A match that cannot be extended stays the same when input is added. *)
Lemma run_stable its l segs r c :
  run its l = Some (segs, r) → r ≠ [] ∨ fixedEnd its = true →
  run its (l ++ c) = Some (segs, r ++ c).
Proof.
  revert l segs r. induction its as [|it its IH]; simpl; intros l segs r Hrun Hend.
  - by injection Hrun as <- <-.
  - assert (its ≠ [] → r ≠ [] ∨ fixedEnd its = true) as Hend'.
    { intros Hne. by rewrite fixedEnd_cons in Hend. }
    assert (∀ l' sg, run its l' = Some (sg, r) →
              run its (l' ++ c) = Some (sg, r ++ c)) as Hnext.
    { intros l' sg Hl'. destruct its as [|it' its'].
      - simpl in Hl' |- *. by simplify_eq.
      - apply IH; [done|]. by apply Hend'. }
    assert (∀ sg, match it with One _ => False | _ => True end →
              run its [] = Some (sg, r) → False) as Hnil.
    { intros sg Hit [-> Hits]%run_nil. destruct Hend as [|Hf]; [done|].
      destruct Hits as [Hits | Hits].
      - subst its. by destruct it.
      - rewrite fixedEnd_cons in Hf; [congruence|]. intros Heq.
        by rewrite Heq in Hits. }
    destruct it as [p|p|p].
    + destruct l as [|a l]; [done|]. simpl. destruct (p a); [|done].
      destruct (run its l) as [[sg r']|] eqn:Hl; [|done].
      simpl in Hrun. injection Hrun as <- <-. by rewrite (Hnext _ _ Hl).
    + destruct (span p l) as [x r1] eqn:Hs.
      destruct (run its r1) as [[sg r']|] eqn:Hl; [|done].
      simpl in Hrun. injection Hrun as <- <-.
      destruct r1 as [|b r1]; [by destruct (Hnil _ I Hl)|].
      rewrite (span_app _ _ _ _ c Hs) by done. by rewrite (Hnext _ _ Hl).
    + destruct l as [|a l].
      * destruct (run its []) as [[sg r']|] eqn:Hl; [|done].
        simpl in Hrun. injection Hrun as <- <-. by destruct (Hnil _ I eq_refl).
      * simpl. destruct (p a).
        -- destruct (run its l) as [[sg r']|] eqn:Hl; [|done].
           simpl in Hrun. injection Hrun as <- <-. by rewrite (Hnext _ _ Hl).
        -- destruct (run its (a :: l)) as [[sg r']|] eqn:Hl; [|done].
           simpl in Hrun. injection Hrun as <- <-.
           pose proof (Hnext _ _ Hl) as Hn. simpl in Hn. by rewrite Hn.
Qed.

(** Input on which the items fail, but succeed once more input follows,
    consists of accepted characters only. *)
Lemma run_partial its l c :
  run its l = None → run its (l ++ c) ≠ None →
  Forall (λ a, accepts its a = true) l.
Proof.
  revert l. induction its as [|it its IH]; intros l; [done|].
  assert (∀ l', run its l' = None → run its (l' ++ c) ≠ None →
            Forall (λ a, accepts (it :: its) a = true) l') as IH'.
  { intros l' H1 H2. eapply Forall_impl; [by apply IH|].
    intros a Ha. simpl. rewrite Ha. by destruct (class it a). }
  assert (∀ (f : _ → list (list ascii) * list ascii) l',
            f <$> run its l' = None → run its l' = None) as Hnone.
  { intros f l'. by destruct (run its l'). }
  assert (∀ (f : _ → list (list ascii) * list ascii) l',
            f <$> run its l' ≠ None → run its l' ≠ None) as Hsome.
  { intros f l'. by destruct (run its l'). }
  destruct it as [p|p|p]; simpl.
  - destruct l as [|a l]; [by constructor|]. simpl.
    destruct (p a) eqn:Hp; [|done]. intros H1%Hnone H2%Hsome.
    constructor; [by rewrite Hp|by apply IH'].
  - destruct (span p l) as [x r1] eqn:Hs.
    destruct (span_spec _ _ _ _ Hs) as [Heq Hx]. intros H1%Hnone.
    assert (Forall (λ a, accepts (Many p :: its) a = true) x) as Hx'.
    { eapply Forall_impl; [exact Hx|]. intros a Ha. simpl. by rewrite Ha. }
    destruct r1 as [|b r1].
    + intros _. by rewrite Heq, app_nil_r.
    + rewrite (span_app _ _ _ _ c Hs) by done.
      intros H2%Hsome. rewrite Heq. apply Forall_app. split; [done|by apply IH'].
  - destruct l as [|a l]; [by constructor|]. simpl.
    destruct (p a) eqn:Hp; intros H1%Hnone H2%Hsome.
    + constructor; [by rewrite Hp|by apply IH'].
    + by apply (IH' (a :: l)).
Qed.

Lemma strip_spec m l r : strip m l = Some r → l = m ++ r.
Proof.
  revert l. induction m as [|b m IH]; simpl; intros l.
  - by intros [= ->].
  - destruct l as [|a l]; [done|]. destruct (Ascii.eqb_spec a b); [|done].
    intros ->%IH. by subst.
Qed.

Lemma strip_app m r : strip m (m ++ r) = Some r.
Proof. induction m as [|b m IH]; simpl; [done|]. by rewrite Ascii.eqb_refl. Qed.

Lemma strip_short m l c :
  strip m l = None → strip m (l ++ c) ≠ None → length l < length m.
Proof.
  revert l. induction m as [|b m IH]; simpl; intros l; [done|].
  destruct l as [|a l]; simpl; [lia|].
  destruct (Ascii.eqb a b); [|done]. intros H1 H2. specialize (IH _ H1 H2). lia.
Qed.

Lemma lookup_marker (u front r : list ascii) :
  (u ++ (front ++ ["="%char]) ++ r) !! (length u + length front) = Some "="%char.
Proof.
  rewrite lookup_app_r by lia.
  replace (length u + length front - length u) with (length front) by lia.
  rewrite <- app_assoc, lookup_app_r by lia. by rewrite Nat.sub_diag.
Qed.

Section Growing.
Variable re : Regex.t.
Variable front : list ascii.

(** The marker ends in ['='], which no item of the body accepts. *)
Hypothesis marker_eq : marker re = front ++ ["="%char].
Hypothesis body_eq : accepts (body re).*2 "=" = false.

Lemma matchAt_stable l segs r c :
  matchAt re l = Some (segs, r) → r ≠ [] ∨ fixedEnd (body re).*2 = true →
  matchAt re (l ++ c) = Some (segs, r ++ c).
Proof.
  unfold matchAt. destruct (strip (marker re) l) as [t|] eqn:Hs; [|done].
  apply strip_spec in Hs as ->. simpl. intros Hrun Hend.
  rewrite <- app_assoc, strip_app. simpl. by apply run_stable.
Qed.

(** Input that starts a match only once more input follows contains no
    complete match further on. *)
Lemma matchAt_late l c t u :
  matchAt re l = None → matchAt re (l ++ c) ≠ None →
  l = u ++ t → u ≠ [] → matchAt re t = None.
Proof.
  unfold matchAt. intros Hnow Hlater -> Hu.
  destruct (strip (marker re) t) as [r'|] eqn:Ht; [|done]. exfalso.
  apply strip_spec in Ht as ->.
  destruct (strip (marker re) (u ++ marker re ++ r')) as [r|] eqn:Hs.
  - pose proof (strip_spec _ _ _ Hs) as Heq. simpl in Hnow.
    rewrite Heq, <- app_assoc, strip_app in Hlater. simpl in Hlater.
    pose proof (run_partial _ _ _ Hnow Hlater) as Hacc.
    assert (r !! (length u - 1) = Some "="%char) as Hin.
    { rewrite marker_eq in Heq.
      pose proof (lookup_marker u front r') as Hl. rewrite Heq in Hl.
      rewrite lookup_app_r in Hl by (rewrite length_app; destruct u; [done|simpl; lia]).
      rewrite length_app in Hl. simpl in Hl.
      by replace (length u + length front - (length front + 1))
        with (length u - 1) in Hl by lia. }
    apply list_elem_of_lookup_2 in Hin.
    rewrite Forall_forall in Hacc. specialize (Hacc _ Hin). congruence.
  - pose proof (strip_short _ _ c Hs) as Hlen.
    destruct (strip (marker re) ((u ++ marker re ++ r') ++ c)) eqn:Hs'; [|done].
    specialize (Hlen ltac:(done)). rewrite !length_app in Hlen. lia.
Qed.

Lemma search_None l :
  (∀ u t, l = u ++ t → matchAt re t = None) → search re l = None.
Proof.
  induction l as [|a l IH]; intros Hall; simpl.
  - by rewrite (Hall [] []).
  - rewrite (Hall [] (a :: l)) by done. apply IH.
    intros u t ->. by apply (Hall (a :: u) t).
Qed.

(** The leftmost match, once it cannot be extended, is the leftmost
    match of every longer input. *)
Lemma search_stable l segs r c :
  search re l = Some (segs, r) → r ≠ [] ∨ fixedEnd (body re).*2 = true →
  search re (l ++ c) = Some (segs, r ++ c).
Proof.
  induction l as [|a l IH]; simpl; intros Hfound Hend.
  - destruct (matchAt re []) as [res|] eqn:Hm; [|done].
    injection Hfound as ->.
    pose proof (matchAt_stable [] _ _ c Hm Hend) as Hst. simpl in Hst.
    destruct c; simpl; by rewrite Hst.
  - destruct (matchAt re (a :: l)) as [res|] eqn:Hm.
    + injection Hfound as ->.
      pose proof (matchAt_stable _ _ _ c Hm Hend) as Hst. simpl in Hst.
      by rewrite Hst.
    + destruct (matchAt re (a :: l ++ c)) as [res|] eqn:Hm'; [|by apply IH].
      exfalso. rewrite search_None in Hfound; [done|].
      intros u t ->.
      apply (matchAt_late (a :: u ++ t) c t (a :: u)); try done.
      simpl. by rewrite Hm'.
Qed.
End Growing.

End RegexFacts.

Lemma list_ascii_of_string_app (s c : string) :
  list_ascii_of_string (s +:+ c) = list_ascii_of_string s ++ list_ascii_of_string c.
Proof. induction s as [|a s IH]; simpl; [done|]. by rewrite <- IH. Qed.

(** More output changes neither the groups of a closed match nor its
    being closed. *)
Lemma exec_closed (re : Regex.t) (front : list ascii) (k : nat) (s chunk : string) :
  Regex.marker re = front ++ ["="%char] →
  Regex.accepts (Regex.body re).*2 "=" = false →
  Regex.closed re s = true →
  Regex.exec re k (s +:+ chunk) = Regex.exec re k s ∧
  Regex.closed re (s +:+ chunk) = true.
Proof.
  intros Hm Hb. unfold Regex.closed, Regex.exec.
  rewrite list_ascii_of_string_app.
  destruct (Regex.search re (list_ascii_of_string s)) as [[segs r]|] eqn:Hs; [|done].
  intros Hc.
  rewrite (RegexFacts.search_stable re front Hm Hb _ _ _ (list_ascii_of_string chunk) Hs).
  - split; [done|]. destruct (Regex.fixedEnd _); [done|].
    simpl in *. by destruct r.
  - destruct (Regex.fixedEnd _); [by right|]. left. by destruct r.
Qed.

Lemma matches_closed (stderr chunk : string) :
  hasRecord stderr = true →
  matches (stderr +:+ chunk) = matches stderr ∧ hasRecord (stderr +:+ chunk) = true.
Proof.
  unfold hasRecord, matches.
  intros ((((Ht & Hs)%andb_prop & Hf)%andb_prop & Hb)%andb_prop & Hz)%andb_prop.
  destruct (exec_closed Regex.time (list_ascii_of_string "time") 3 stderr chunk
              eq_refl eq_refl Ht) as [-> ->].
  destruct (exec_closed Regex.speed (list_ascii_of_string "speed") 1 stderr chunk
              eq_refl eq_refl Hs) as [-> ->].
  destruct (exec_closed Regex.fps (list_ascii_of_string "fps") 1 stderr chunk
              eq_refl eq_refl Hf) as [-> ->].
  destruct (exec_closed Regex.bitrate (list_ascii_of_string "bitrate") 1 stderr chunk
              eq_refl eq_refl Hb) as [-> ->].
  destruct (exec_closed Regex.size (list_ascii_of_string "size") 1 stderr chunk
              eq_refl eq_refl Hz) as [-> ->].
  done.
Qed.



(** * Further properties *)

(** ** Further properties of the argument builder *)

(** X10. The bitrate planned for the first pass lies between 300 and 8000
    kbps whenever the audio bitrate of the preset starts with a number
    (or the preset has no audio); otherwise the text is [NaNk]. *)
Theorem calculateTargetBitrate_range
    (targetSizeBytes : Z) (inputPath : string) (preset : Preset.t) :
  match Preset.audio preset with
  | Some a =>
      match Js.parseInt (Js.removeFirst "k" (Audio.bitrate a)) with
      | Some _ =>
          ∃ n, (300 ≤ n ≤ 8000)%Z ∧
               calculateTargetBitrate targetSizeBytes inputPath preset = Js.toString n +:+ "k"
      | None => calculateTargetBitrate targetSizeBytes inputPath preset = "NaNk"
      end
  | None =>
      ∃ n, (300 ≤ n ≤ 8000)%Z ∧
           calculateTargetBitrate targetSizeBytes inputPath preset = Js.toString n +:+ "k"
  end.
Proof.
  assert (∀ q : Q, (300 ≤ Js.round (Qmax (300 # 1) (Qmin (8000 # 1) q)) ≤ 8000)%Z) as Hr.
  { intros q. unfold Js.round.
    assert (300 # 1 <= Qmax (300 # 1) (Qmin (8000 # 1) q))%Q as Hlo by apply Q.le_max_l.
    assert (Qmax (300 # 1) (Qmin (8000 # 1) q) <= 8000 # 1)%Q as Hhi.
    { apply Q.max_lub; [done|apply Q.le_min_l]. }
    split.
    - change 300%Z with (Qfloor ((300 # 1) + (1 # 2))).
      apply Qfloor_resp_le. by apply Qplus_le_l.
    - change 8000%Z with (Qfloor ((8000 # 1) + (1 # 2))).
      apply Qfloor_resp_le. by apply Qplus_le_l. }
  unfold calculateTargetBitrate.
  destruct (Preset.audio preset) as [a|]; simpl.
  - destruct (Js.parseInt _) as [z|]; simpl; [|done]. eexists. split; [apply Hr|done].
  - eexists. split; [apply Hr|done].
Qed.

Lemma buildFfmpegArgs_input (win32 : bool) (config : Config.t) :
  ∃ rest, buildFfmpegArgs win32 config = Some ("-i" :: Config.inputPath config :: rest).
Proof.
  unfold buildFfmpegArgs, buildTwoPassArgs.
  destruct (Js.truthyN (Config.targetSize config)); simpl; [|by eexists].
  destruct (Preset.video (effectivePreset config)) as [v|]; simpl; [|by eexists].
  destruct (Video.twoPass v); by eexists.
Qed.

(** X11. [buildFfmpegArgs] never throws: the two-pass branch is entered only
    with a video object at hand. Its arguments always start with the
    input: [-i], then the input path. *)
Theorem buildFfmpegArgs_total (win32 : bool) (config : Config.t) :
  ∃ rest, buildFfmpegArgs win32 config = Some ("-i" :: Config.inputPath config :: rest).
Proof. apply buildFfmpegArgs_input. Qed.

(** X12. Outside the two-pass mode the arguments end with the overwrite flag
    and the output path; in it, the output path is never passed: the
    encoder writes to the null device. *)
Theorem buildFfmpegArgs_destination (win32 : bool) (config : Config.t) :
  ∃ front, buildFfmpegArgs win32 config =
    Some (front ++
          if Js.truthyN (Config.targetSize config)
             && default false (Video.twoPass <$> Preset.video (effectivePreset config))
          then ["-f"; "mp4"; if win32 then "NUL" else "/dev/null"]
          else ["-y"; Config.outputPath config]).
Proof.
  unfold buildFfmpegArgs, buildTwoPassArgs.
  destruct (Js.truthyN (Config.targetSize config)); simpl.
  - destruct (Preset.video (effectivePreset config)) as [v|]; simpl.
    + destruct (Video.twoPass v).
      * by exists ["-i"; Config.inputPath config; "-c:v"; VideoCodec_str (Video.codec v);
                   "-b:v"; calculateTargetBitrate (default 0%Z (Config.targetSize config))
                             (Config.inputPath config) (effectivePreset config);
                   "-pass"; "1"; "-an"].
      * eexists. rewrite !app_comm_cons, !app_assoc. reflexivity.
    + eexists. rewrite !app_comm_cons, !app_assoc. reflexivity.
  - eexists. rewrite !app_comm_cons, !app_assoc. reflexivity.
Qed.

(** ** Further properties of the progress parser *)

Lemma strip_elem m l r a : Regex.strip m l = Some r → a ∈ m → a ∈ l.
Proof.
  intros ->%RegexFacts.strip_spec Ha. apply elem_of_app. by left.
Qed.

Lemma search_without_marker (re : Regex.t) (a : ascii) (l : list ascii) :
  a ∈ Regex.marker re → a ∉ l → Regex.search re l = None.
Proof.
  intros Hm. induction l as [|b l IH]; intros Hl; simpl.
  - unfold Regex.matchAt. destruct (Regex.strip _ _) eqn:Hs; [|done].
    destruct Hl. by eapply strip_elem.
  - unfold Regex.matchAt. destruct (Regex.strip (Regex.marker re) (b :: l)) eqn:Hs.
    + destruct Hl. by eapply strip_elem.
    + simpl. apply IH. intros Hin. apply Hl. by right.
Qed.

(** X9. Output without a single ['='] yields no field at all: nothing
    matches, whatever else the text holds. *)
Theorem matches_without_marker (stderr : string) :
  "="%char ∉ list_ascii_of_string stderr →
  matches stderr = Build_Matches None None None None None.
Proof.
  intros Hno. unfold matches, Regex.exec.
  rewrite !(search_without_marker _ "="%char) by (done || (vm_compute; set_solver)).
  done.
Qed.

Lemma matches_without_marker_witness :
  matches "Press [q] to stop, [?] for help" = Build_Matches None None None None None.
Proof.
  apply matches_without_marker. vm_compute.
  intros H. repeat (apply elem_of_cons in H as [H|H]; [discriminate H|]).
  by apply elem_of_nil in H.
Defined.

(** ** Further properties of the scheduler *)

Lemma executeJob_jobQueue now jobId s : jobQueue (executeJob now jobId s) = jobQueue s.
Proof. unfold executeJob. by destruct (_ !! _). Qed.

Lemma processQueueFrom_saturates sys now queue s :
  jobQueue s = queue →
  jobQueue (processQueueFrom sys now queue s) = [] ∨
  maxParallelJobs sys ≤ length (runningJobs (processQueueFrom sys now queue s)).
Proof.
  revert s. induction queue as [|jobId queue IH]; intros s Hq; simpl; [by left|].
  destruct (Nat.ltb_spec (length (runningJobs s)) (maxParallelJobs sys)); [|by right].
  destruct (activeJobs s !! jobId) as [job|]; [|by apply IH].
  case_decide; [|by apply IH].
  apply IH. by rewrite executeJob_jobQueue.
Qed.

(** X1. The admission pass is work-conserving: when it returns, the queue is
    empty or every slot is taken. *)
Theorem processQueue_saturates (sys : Sys) (now : Z) (s : State) :
  jobQueue (processQueue sys now s) = [] ∨
  maxParallelJobs sys ≤ length (runningJobs (processQueue sys now s)).
Proof. by apply processQueueFrom_saturates. Qed.

Lemma queuedAll_update s s' jobId job :
  queuedAll s →
  activeJobs s' = <[jobId:=job]> (activeJobs s) →
  (∀ y, y ≠ jobId → y ∈ jobQueue s → y ∈ jobQueue s') →
  (Job.status job = waiting → jobId ∈ jobQueue s') →
  queuedAll s'.
Proof.
  intros Hq Hjobs Hkeep Hj k j. rewrite Hjobs, lookup_insert. case_decide as Hk.
  - intros [= <-]. by subst.
  - intros Hl Hw. apply Hkeep; [done|]. by eapply Hq.
Qed.

Lemma processQueueFrom_queuedAll sys now queue s :
  jobQueue s = queue → queuedAll s → queuedAll (processQueueFrom sys now queue s).
Proof.
  revert s. induction queue as [|jobId queue IH]; intros s Hq Hall; simpl; [done|].
  destruct (_ <? _); [|done].
  destruct (activeJobs s !! jobId) as [job|] eqn:Hjob.
  - case_decide as Hst.
    + apply IH; [by rewrite executeJob_jobQueue|].
      unfold executeJob. simpl. rewrite Hjob.
      eapply queuedAll_update; [exact Hall|reflexivity|..]; simpl; [|done].
      intros y Hy Hin. rewrite Hq in Hin. apply elem_of_cons in Hin as [?|?]; done.
    + apply IH; [done|]. intros k j Hk Hw. simpl in *.
      specialize (Hall k j Hk Hw). rewrite Hq in Hall.
      apply elem_of_cons in Hall as [->|?]; [congruence|done].
  - apply IH; [done|]. intros k j Hk Hw. simpl in *.
    specialize (Hall k j Hk Hw). rewrite Hq in Hall.
    apply elem_of_cons in Hall as [->|?]; [congruence|done].
Qed.

Lemma processQueue_queuedAll sys now s : queuedAll s → queuedAll (processQueue sys now s).
Proof. by apply processQueueFrom_queuedAll. Qed.

(** A handler that stores a job that is not waiting and removes nothing
    but its id from the queue, then runs the admission pass. *)
Lemma queuedAll_retire sys now s s' jobId job :
  queuedAll s →
  activeJobs s' = <[jobId:=job]> (activeJobs s) →
  (∀ y, y ≠ jobId → y ∈ jobQueue s → y ∈ jobQueue s') →
  Job.status job ≠ waiting →
  queuedAll (processQueue sys now s').
Proof.
  intros Hq Hjobs Hkeep Hst. apply processQueue_queuedAll.
  by eapply queuedAll_update.
Qed.

Lemma step_queuedAll sys s turn : queuedAll s → queuedAll (step sys s turn).
Proof.
  intros Hq. destruct turn as [now op]. unfold step.
  destruct op, (pending s) eqn:Hp; try done.
  - unfold startJob. destruct (inputExists env); simpl; [|done].
    destruct (mkdirThrows env); simpl; [done|].
    apply processQueue_queuedAll.
    eapply queuedAll_update; [exact Hq|reflexivity|..]; simpl.
    + intros y _ Hy. apply elem_of_app. by left.
    + intros _. apply elem_of_app. right. apply list_elem_of_here.
  - unfold cancelJob. destruct (activeJobs s !! jobId) as [job|]; simpl; [|done].
    eapply queuedAll_retire; [exact Hq|reflexivity|..]; simpl; [|done].
    intros y Hy Hin. by apply elem_of_spliceOut.
  - unfold pauseJob. destruct (activeJobs s !! jobId) as [job|]; simpl; [|done].
    destruct (Job.status job), (Job.process job); simpl; try done.
    eapply queuedAll_update; [exact Hq|reflexivity|..]; simpl; done.
  - unfold resumeJob. destruct (activeJobs s !! jobId) as [job|]; simpl; [|done].
    destruct (Job.status job), (Job.process job); simpl; try done.
    eapply queuedAll_update; [exact Hq|reflexivity|..]; simpl; done.
  - intros k j. simpl. intros [Hk _]%map_lookup_filter_Some. by apply Hq.
  - unfold onData. destruct (children s !! h) as [c|]; [|done].
    unfold parseProgress.
    change (activeJobs (withChildren _ s)) with (activeJobs s).
    destruct (activeJobs s !! Child.jobId c) as [job|] eqn:Hjob; [|done].
    eapply queuedAll_update; [exact Hq|reflexivity|..]; simpl; [done|].
    intros Hw. eapply Hq; [done|]. by destruct (_ ≫= _).
  - unfold onClose. destruct (children s !! h) as [c|]; [|done].
    destruct (activeJobs s !! Child.jobId c) as [job|]; [|done].
    case_decide; destruct inputStat;
      first [ eapply queuedAll_retire; [exact Hq|reflexivity|..]; simpl;
              [done|by destruct outputStat]
            | eapply queuedAll_update; [exact Hq|reflexivity|..]; simpl;
              [done|by destruct outputStat] ].
  - unfold onError. destruct (children s !! h) as [c|]; [|done].
    destruct (activeJobs s !! Child.jobId c) as [job|]; [|done].
    eapply queuedAll_retire; [exact Hq|reflexivity|..]; simpl; done.
  - unfold executeJobResume. by rewrite Hp.
  - unfold executeJobResume. rewrite Hp. simpl.
    destruct (activeJobs s !! s0) as [job|] eqn:Hjob; [|done].
    assert (∀ message, queuedAll (executeJobCatch sys now s0 job message
              (withPending (λ _, l) s))) as Hcatch.
    { intros message. eapply queuedAll_retire; [exact Hq|reflexivity|..]; simpl; done. }
    destruct (buildFfmpegArgs _ _); [|done].
    destruct (binaryExists env); simpl; [|done].
    destruct (spawnThrows env); [done|].
    eapply queuedAll_update; [exact Hq|reflexivity|..]; simpl; [done|].
    intros Hw. by eapply Hq.
Qed.

Lemma exec_queuedAll sys turns s : queuedAll s → queuedAll (exec sys turns s).
Proof.
  revert s. induction turns as [|turn turns IH]; intros s Hq; [done|].
  apply IH. by apply step_queuedAll.
Qed.

(** X2. As long as [uuidv4] never repeats an id, the queue holds exactly the
    waiting jobs and the running list exactly the running and paused
    ones, each id once, and no job is set running twice. *)
Theorem registry_matches_lists (sys : Sys) (turns : list (Z * Op)) :
  NoDup (uuids turns) →
  let s := exec sys turns init in
  (∀ k, k ∈ jobQueue s ↔ ∃ job, activeJobs s !! k = Some job ∧ Job.status job = waiting) ∧
  (∀ k, k ∈ runningJobs s ↔
        ∃ job, activeJobs s !! k = Some job ∧ live (Job.status job) = true) ∧
  NoDup (jobQueue s) ∧ NoDup (runningJobs s) ∧ NoDup (admitted s).
Proof.
  intros Hnd s.
  pose proof (exec_consistent sys turns Hnd) as H. fold s in H.
  pose proof (exec_bounded sys turns init (init_bounded sys)) as [Hc _]. fold s in Hc.
  assert (queuedAll s) as Hq.
  { apply exec_queuedAll. intros k j. simpl. by rewrite lookup_empty. }
  pose proof (consistent_NoDup s H) as (Ha & _ & Hqn)%NoDup_app.
  split_and!; try done.
  - intros k. split; [apply (c_queue s H)|]. intros (job & Hk & Hw). by eapply Hq.
  - intros k. split; [apply (c_running s H)|]. intros (job & Hk & Hl). by eapply Hc.
  - apply H.
Qed.

Lemma registry_matches_lists_witness :
  NoDup (jobQueue (exec sampleSys queuedRun init)).
Proof.
  assert (NoDup (uuids queuedRun)) as Hnd
    by (apply (bool_decide_eq_true_1 (NoDup (uuids queuedRun))); vm_compute; reflexivity).
  apply (registry_matches_lists sampleSys queuedRun Hnd).
Defined.

(** ** Admission in arrival order: the queue is served *)

Lemma processQueue_saturated sys now s : saturated sys (processQueue sys now s).
Proof.
  intros _ Hne.
  destruct (processQueueFrom_saturates sys now (jobQueue s) s eq_refl) as [Hq|Hfull];
    [contradiction|exact Hfull].
Qed.

Lemma saturated_same sys s s' :
  saturated sys s → faults s' = faults s → jobQueue s' = jobQueue s →
  runningJobs s' = runningJobs s → saturated sys s'.
Proof. unfold saturated. intros H -> -> ->. exact H. Qed.

Lemma step_saturated sys s turn : saturated sys s → saturated sys (step sys s turn).
Proof.
  intros Hs. destruct turn as [now op]. unfold step.
  destruct op, (pending s) eqn:Hp; try done.
  - unfold startJob. destruct (inputExists env); simpl; [|done].
    destruct (mkdirThrows env); simpl; [done|]. apply processQueue_saturated.
  - unfold cancelJob. destruct (activeJobs s !! jobId); simpl; [|done].
    apply processQueue_saturated.
  - unfold pauseJob. destruct (activeJobs s !! jobId) as [job|]; simpl; [|done].
    destruct (Job.status job), (Job.process job); simpl;
      by eapply saturated_same.
  - unfold resumeJob. destruct (activeJobs s !! jobId) as [job|]; simpl; [|done].
    destruct (Job.status job), (Job.process job); simpl;
      by eapply saturated_same.
  - by intros _ Hne.
  - unfold onData. destruct (children s !! h) as [c|]; [|done].
    unfold parseProgress.
    change (activeJobs (withChildren _ s)) with (activeJobs s).
    destruct (activeJobs s !! Child.jobId c) as [job|]; [|done].
    by eapply saturated_same.
  - unfold onClose. destruct (children s !! h) as [c|]; [|done].
    destruct (activeJobs s !! Child.jobId c) as [job|]; [|done].
    case_decide; destruct inputStat; try apply processQueue_saturated;
      intros Hf; simpl in Hf; by destruct (faults s).
  - unfold onError. destruct (children s !! h) as [c|]; [|done].
    destruct (activeJobs s !! Child.jobId c) as [job|]; [|done].
    apply processQueue_saturated.
  - unfold executeJobResume. by rewrite Hp.
  - unfold executeJobResume. rewrite Hp. simpl.
    destruct (activeJobs s !! s0) as [job|]; [|by eapply saturated_same].
    unfold executeJobCatch.
    destruct (buildFfmpegArgs _ _); [|apply processQueue_saturated].
    destruct (binaryExists env); simpl; [|apply processQueue_saturated].
    destruct (spawnThrows env); [apply processQueue_saturated|].
    by eapply saturated_same.
Qed.

Lemma exec_saturated sys turns s : saturated sys s → saturated sys (exec sys turns s).
Proof.
  revert s. induction turns as [|turn turns IH]; intros s Hs; [done|].
  apply IH. by apply step_saturated.
Qed.

(** In a list without repetition, what a subsequence lists first comes
    first. *)
Lemma sublist_app_order {A} (l1 l2 l : list A) (a b : A) (i j : nat) :
  l1 ++ l2 `sublist_of` l → NoDup l → b ∈ l1 → a ∈ l2 →
  l !! i = Some a → l !! j = Some b → j < i.
Proof.
  intros (k1 & k2 & -> & H1 & H2)%sublist_app_l (_ & Hdisj & _)%NoDup_app Hb Ha Hi Hj.
  assert (b ∈ k1) as Hb1 by (by eapply elem_of_sublist).
  assert (a ∈ k2) as Ha2 by (by eapply elem_of_sublist).
  destruct (decide (i < length k1)) as [Hlt|Hge].
  { rewrite lookup_app_l in Hi by done. apply list_elem_of_lookup_2 in Hi.
    by destruct (Hdisj a). }
  destruct (decide (j < length k1)) as [Hlt|Hge']; [lia|].
  rewrite lookup_app_r in Hj by lia. apply list_elem_of_lookup_2 in Hj.
  by destruct (Hdisj b).
Qed.

(** C2. Jobs are set running in the order of their submission, and what
    happens to running jobs never reorders the waiting ones. At every
    point of every execution under one setting of [maxParallelJobs]: the
    ids set running so far, in that order, followed by the ids still
    queued, in queue order, read off the ids submitted, in submission
    order, from left to right; every waiting job is queued; and, unless
    a handler has thrown, a job is queued only while every slot is
    taken, so the queue is served. As long as [uuidv4] never repeats an
    id, moreover: the queue holds waiting jobs only; every running or
    paused job has been logged as set running; and every job set running
    so far was submitted before every job that is still waiting, so no
    job has overtaken another. *)
Theorem admission_follows_submission (sys : Sys) (turns : list (Z * Op)) :
  let s := exec sys turns init in
  admitted s ++ jobQueue s `sublist_of` submitted s ∧
  (∀ k job, activeJobs s !! k = Some job → Job.status job = waiting → k ∈ jobQueue s) ∧
  (faults s = [] → jobQueue s ≠ [] → maxParallelJobs sys ≤ length (runningJobs s)) ∧
  (NoDup (uuids turns) →
     NoDup (submitted s) ∧
     (∀ k, k ∈ jobQueue s →
        ∃ job, activeJobs s !! k = Some job ∧ Job.status job = waiting) ∧
     (∀ k job, activeJobs s !! k = Some job → live (Job.status job) = true →
        k ∈ admitted s) ∧
     (∀ a b ja i j,
        activeJobs s !! a = Some ja → Job.status ja = waiting → b ∈ admitted s →
        submitted s !! i = Some a → submitted s !! j = Some b → j < i)).
Proof.
  intros s.
  assert (fifo s) as Hf by (apply exec_fifo; unfold fifo; simpl; done).
  assert (queuedAll s) as Hq.
  { apply exec_queuedAll. intros k j. simpl. by rewrite lookup_empty. }
  split; [exact Hf|]. split; [exact Hq|]. split.
  { apply exec_saturated. intros _ Hne. done. }
  intros Hnd. pose proof (exec_consistent sys turns Hnd) as H. fold s in H.
  pose proof (exec_bounded sys turns init (init_bounded sys)) as [Hc _]. fold s in Hc.
  split; [apply (c_fresh s H)|]. split; [apply (c_queue s H)|]. split.
  - intros k job Hk Hl. apply (c_started s H). left. by eapply Hc.
  - intros a b ja i j Ha Hw Hb Hi Hj.
    eapply (sublist_app_order (admitted s) (jobQueue s) (submitted s) a b);
      [exact Hf|apply (c_fresh s H)|exact Hb|by eapply Hq|exact Hi|exact Hj].
Qed.

Lemma admission_follows_submission_witness :
  let s := exec sampleSys queuedRun init in
  admitted s = ["a"; "b"] ∧ jobQueue s = ["c"] ∧ 2 ≤ length (runningJobs s).
Proof.
  intros s. split; [vm_compute; reflexivity|]. split; [vm_compute; reflexivity|].
  destruct (admission_follows_submission sampleSys queuedRun) as (_ & _ & Hserved & _).
  apply Hserved; [vm_compute; reflexivity|].
  intros Hq. apply (f_equal length) in Hq. vm_compute in Hq. discriminate Hq.
Defined.

(** ** Further properties of the public methods *)

Lemma setStatus_id job : Job.setStatus (Job.status job) job = job.
Proof. by destruct job. Qed.

(** X5. Pausing a running job and resuming it at once restores the registry
    as it was (the progress with it); the child has received SIGSTOP and
    then SIGCONT, and nothing else has changed. *)
Theorem pauseJob_then_resumeJob (s : State) (jobId : string) (job : Job.t) (h : nat) :
  activeJobs s !! jobId = Some job →
  Job.status job = running → Job.process job = Some h →
  ∃ s1 s2,
    pauseJob jobId s = inr s1 ∧ resumeJob jobId s1 = inr s2 ∧
    activeJobs s2 = activeJobs s ∧
    signals s2 = signals s ++ [(h, SIGSTOP); (h, SIGCONT)] ∧
    jobQueue s2 = jobQueue s ∧ runningJobs s2 = runningJobs s ∧
    emitted s2 = emitted s ∧ history s2 = history s.
Proof.
  intros Hjob Hst Hpr. unfold pauseJob. rewrite Hjob, Hst, Hpr.
  eexists _, _. split; [reflexivity|]. unfold resumeJob. simpl.
  rewrite lookup_insert_eq. simpl. rewrite Hpr. split; [reflexivity|]. simpl.
  split_and!; try done.
  - rewrite insert_insert_eq. apply insert_id. rewrite Hjob. f_equal.
    destruct job; simpl in *. by subst.
  - by rewrite <- app_assoc.
Qed.

Lemma pauseJob_then_resumeJob_witness :
  let s := exec sampleSys queuedRun init in
  ∃ s1 s2, pauseJob "a" s = inr s1 ∧ resumeJob "a" s1 = inr s2 ∧
           activeJobs s2 = activeJobs s.
Proof.
  intros s.
  assert (activeJobs s !! "a" = Some queuedJobA) as Hjob by (vm_compute; reflexivity).
  destruct (pauseJob_then_resumeJob s "a" queuedJobA 0 Hjob eq_refl eq_refl)
    as (s1 & s2 & H1 & H2 & H3 & _).
  exists s1, s2. split; [exact H1|]. split; [exact H2|exact H3].
Defined.

(** The admission pass changes nothing of a job but, for a waiting one it
    sets running, its status and its start time. *)
Lemma processQueueFrom_job sys now queue s k job :
  activeJobs s !! k = Some job →
  ∃ job', activeJobs (processQueueFrom sys now queue s) !! k = Some job' ∧
    Job.id job' = Job.id job ∧ Job.config job' = Job.config job ∧
    Job.process job' = Job.process job ∧ Job.progress job' = Job.progress job ∧
    Job.error job' = Job.error job ∧ Job.outputSize job' = Job.outputSize job ∧
    (job' = job ∨
     Job.status job = waiting ∧ Job.status job' = running ∧ Job.startTime job' = Some now).
Proof.
  revert s job. induction queue as [|jobId queue IH]; intros s job Hk; simpl.
  { exists job. split_and!; auto. }
  destruct (_ <? _); [|exists job; split_and!; auto].
  destruct (activeJobs s !! jobId) as [j|] eqn:Hj; [|by apply IH].
  case_decide as Hw; [|by apply IH].
  destruct (decide (k = jobId)) as [->|Hne].
  - assert (j = job) as -> by congruence.
    edestruct (IH (executeJob now jobId
                     (withRunning (λ r, r ++ [jobId]) (withQueue (λ _, queue) s))))
      as (job' & Hk' & Hid & Hcfg & Hpr & Hpg & Her & Hos & Hcase).
    { unfold executeJob. simpl. rewrite Hj. simpl. apply lookup_insert_eq. }
    exists job'. simpl in *. split_and!; try done. right.
    destruct Hcase as [->|(Hc & _)]; [done|]. discriminate Hc.
  - apply IH. unfold executeJob. simpl. rewrite Hj. simpl.
    by rewrite lookup_insert_ne.
Qed.

(** X3. A submission with its input present is accepted; the job is stored
    under the new id with the given input, and with the output path
    replaced by the unique one when the output already exists. With a
    free slot and an empty queue it is set running at once, its start
    time the time of the call; with every slot taken it waits at the end
    of the queue. *)
Theorem startJob_admission
    (sys : Sys) (now : Z) (env : SubmitEnv) (config : Config.t) (s : State) :
  inputExists env = true → mkdirThrows env = None →
  ∃ s' job,
    startJob sys now env config s = inr s' ∧
    activeJobs s' !! uuid env = Some job ∧
    Config.inputPath (Job.config job) = Config.inputPath config ∧
    Config.outputPath (Job.config job) =
      (if outputExists env then uniquePath env else Config.outputPath config) ∧
    Job.process job = None ∧ Job.progress job = 0%Q ∧
    (length (runningJobs s) < maxParallelJobs sys → jobQueue s = [] →
       Job.status job = running ∧ Job.startTime job = Some now ∧
       jobQueue s' = [] ∧ runningJobs s' = runningJobs s ++ [uuid env] ∧
       pending s' = pending s ++ [uuid env]) ∧
    (maxParallelJobs sys ≤ length (runningJobs s) →
       Job.status job = waiting ∧ Job.startTime job = None ∧
       jobQueue s' = jobQueue s ++ [uuid env] ∧ runningJobs s' = runningJobs s ∧
       pending s' = pending s).
Proof.
  intros Hin Hmk. unfold startJob. rewrite Hin, Hmk. simpl.
  set (job0 := Job.mk (uuid env) _ None waiting 0 None None None).
  set (s0 := logSubmitted _ _).
  assert (activeJobs s0 !! uuid env = Some job0) as Hk by apply lookup_insert_eq.
  destruct (processQueueFrom_job sys now (jobQueue s0) s0 _ _ Hk)
    as (job & Hjob & _ & Hcfg & Hpr & Hpg & _ & _ & _).
  fold (processQueue sys now s0) in Hjob.
  exists (processQueue sys now s0), job.
  split; [reflexivity|]. split; [exact Hjob|].
  rewrite Hcfg, Hpr, Hpg.
  split_and!; try done; try (by destruct (outputExists env)).
  - intros Hlt Hq.
    assert (processQueue sys now s0 =
            executeJob now (uuid env)
              (withRunning (λ r, r ++ [uuid env]) (withQueue (λ _, []) s0))) as Heq.
    { unfold processQueue. change (jobQueue s0) with (jobQueue s ++ [uuid env]).
      rewrite Hq. simpl. change (runningJobs s0) with (runningJobs s).
      rewrite (proj2 (Nat.ltb_lt _ _) Hlt).
      by rewrite lookup_insert_eq. }
    rewrite Heq in Hjob |- *. unfold executeJob in *.
    change (activeJobs (withRunning _ (withQueue _ s0))) with (activeJobs s0) in *.
    rewrite Hk in *. simpl in Hjob |- *. rewrite lookup_insert_eq in Hjob.
    by injection Hjob as <-.
  - intros Hge. rewrite processQueue_idle in Hjob |- * by (right; exact Hge).
    rewrite Hk in Hjob. by injection Hjob as <-.
Qed.

Lemma startJob_admission_witness :
  ∃ s' job, startJob sampleSys 1 (Build_SubmitEnv "a" true None false "") sampleConfig init
            = inr s' ∧ activeJobs s' !! "a" = Some job ∧ Job.status job = running.
Proof.
  destruct (startJob_admission sampleSys 1 (Build_SubmitEnv "a" true None false "")
              sampleConfig init eq_refl eq_refl)
    as (s' & job & Hs & Hj & _ & _ & _ & _ & Hfree & _).
  exists s', job. split; [exact Hs|]. split; [exact Hj|].
  apply Hfree; [simpl; lia|reflexivity].
Defined.

Lemma processQueueFrom_runningJobs sys now queue s k :
  k ∈ runningJobs (processQueueFrom sys now queue s) → k ∈ runningJobs s ∨ k ∈ queue.
Proof.
  revert s. induction queue as [|jobId queue IH]; intros s; simpl; [auto|].
  destruct (_ <? _); [|auto].
  destruct (activeJobs s !! jobId) as [job|].
  - case_decide.
    + intros [Hk|Hk]%IH; [|right; by right].
      rewrite executeJob_runningJobs in Hk. simpl in Hk.
      apply elem_of_app in Hk as [?| ->%list_elem_of_singleton]; [by left|].
      right. apply list_elem_of_here.
    + intros [Hk|Hk]%IH; [by left|right; by right].
  - intros [Hk|Hk]%IH; [by left|right; by right].
Qed.

Lemma processQueueFrom_jobQueue sys now queue s :
  jobQueue s = queue → jobQueue (processQueueFrom sys now queue s) `sublist_of` queue.
Proof.
  revert s. induction queue as [|jobId queue IH]; intros s Hq; simpl; [by rewrite Hq|].
  destruct (_ <? _); [|by rewrite Hq].
  apply sublist_cons.
  destruct (activeJobs s !! jobId) as [job|]; [case_decide|]; apply IH; try done.
  by rewrite executeJob_jobQueue.
Qed.

(** ** Cancelling a waiting job *)

(** The admission pass leaves alone what is not queued. *)
Lemma processQueueFrom_other sys now queue s k :
  k ∉ queue →
  activeJobs (processQueueFrom sys now queue s) !! k = activeJobs s !! k ∧
  (k ∈ admitted (processQueueFrom sys now queue s) → k ∈ admitted s).
Proof.
  revert s. induction queue as [|jobId queue IH]; intros s Hk; simpl; [done|].
  apply not_elem_of_cons in Hk as [Hne Hk].
  destruct (_ <? _); [|done].
  destruct (activeJobs s !! jobId) as [job|] eqn:Hjob; [|exact (IH _ Hk)].
  case_decide; [|exact (IH _ Hk)].
  match goal with |- context [processQueueFrom sys now queue ?t] =>
    destruct (IH t Hk) as [Hl Ha]
  end.
  rewrite Hl. unfold executeJob in *. simpl in *. rewrite Hjob in *. simpl in *.
  split; [by rewrite lookup_insert_ne|].
  intros [Hin| ->%list_elem_of_singleton]%Ha%elem_of_app; done.
Qed.

Lemma processQueue_neverStarted sys now s k :
  neverStarted k s → neverStarted k (processQueue sys now s).
Proof.
  intros (Ha & Hq & Hc).
  destruct (processQueueFrom_other sys now (jobQueue s) s k Hq) as [Hl Hadm].
  split_and!.
  - intros Hin. by apply Ha, Hadm.
  - intros Hin. apply Hq. eapply elem_of_sublist; [exact Hin|].
    by apply processQueueFrom_jobQueue.
  - intros job. unfold processQueue. rewrite Hl. apply Hc.
Qed.

Lemma neverStarted_update s s' k j job :
  neverStarted k s →
  activeJobs s' = <[j:=job]> (activeJobs s) →
  (j = k → Job.status job = cancelled) →
  admitted s' = admitted s → k ∉ jobQueue s' →
  neverStarted k s'.
Proof.
  intros (Ha & Hq & Hc) Hjobs Hj Hadm Hq'. split_and!; [by rewrite Hadm|done|].
  intros job'. rewrite Hjobs, lookup_insert. case_decide as Hk.
  - intros [= <-]. by apply Hj.
  - apply Hc.
Qed.

(** Once a job that was never set running is cancelled and off the
    queue, no turn brings it back, as long as no submission reuses its
    id. *)
Lemma step_neverStarted sys s turn k :
  consistent s → (∀ u, u ∈ uuids [turn] → u ≠ k) →
  neverStarted k s → neverStarted k (step sys s turn).
Proof.
  intros H Hfresh Hn. pose proof Hn as (Ha & Hq & Hc).
  assert (∀ h c, children s !! h = Some c → Child.jobId c ≠ k) as Hchild.
  { intros h c Hhc Heq. apply Ha. rewrite <- Heq. by apply (child_started s h c). }
  destruct turn as [now op]. unfold step.
  destruct op, (pending s) eqn:Hp; try done.
  - unfold startJob. destruct (inputExists env); simpl; [|done].
    destruct (mkdirThrows env); simpl; [done|].
    assert (uuid env ≠ k) as Hne by (apply Hfresh, list_elem_of_here).
    apply processQueue_neverStarted.
    eapply neverStarted_update; [exact Hn|reflexivity|done|done|]. simpl.
    rewrite elem_of_app, list_elem_of_singleton. by intros [?|?].
  - unfold cancelJob. destruct (activeJobs s !! jobId) as [job|]; simpl; [|done].
    apply processQueue_neverStarted.
    eapply neverStarted_update; [exact Hn|reflexivity|done|done|]. simpl.
    intros Hin. apply Hq. eapply elem_of_sublist; [exact Hin|apply sublist_spliceOut].
  - unfold pauseJob. destruct (activeJobs s !! jobId) as [job|] eqn:Hjob; simpl; [|done].
    destruct (Job.status job) eqn:Hst, (Job.process job); simpl; try done.
    eapply neverStarted_update; [exact Hn|reflexivity| |done|done].
    intros ->. apply Hc in Hjob. congruence.
  - unfold resumeJob. destruct (activeJobs s !! jobId) as [job|] eqn:Hjob; simpl; [|done].
    destruct (Job.status job) eqn:Hst, (Job.process job); simpl; try done.
    eapply neverStarted_update; [exact Hn|reflexivity| |done|done].
    intros ->. apply Hc in Hjob. congruence.
  - split_and!; [done..|]. intros job. simpl.
    intros [Hk _]%map_lookup_filter_Some. by apply Hc.
  - split_and!; [done|simpl; apply not_elem_of_nil|]. intros job. simpl.
    by rewrite lookup_empty.
  - unfold onData. destruct (children s !! h) as [c|] eqn:Hhc; [|done].
    unfold parseProgress.
    change (activeJobs (withChildren _ s)) with (activeJobs s).
    destruct (activeJobs s !! Child.jobId c) as [job|]; [|done].
    eapply neverStarted_update; [exact Hn|reflexivity| |done|done].
    intros Heq. by destruct (Hchild h c).
  - unfold onClose. destruct (children s !! h) as [c|] eqn:Hhc; [|done].
    destruct (activeJobs s !! Child.jobId c) as [job|]; [|done].
    case_decide; destruct inputStat; try apply processQueue_neverStarted;
      (eapply neverStarted_update; [exact Hn|reflexivity| |done|done];
       intros Heq; by destruct (Hchild h c)).
  - unfold onError. destruct (children s !! h) as [c|] eqn:Hhc; [|done].
    destruct (activeJobs s !! Child.jobId c) as [job|]; [|done].
    apply processQueue_neverStarted.
    eapply neverStarted_update; [exact Hn|reflexivity| |done|done].
    intros Heq. by destruct (Hchild h c).
  - unfold executeJobResume. by rewrite Hp.
  - unfold executeJobResume. rewrite Hp. simpl.
    destruct (activeJobs s !! s0) as [job|]; [|done].
    assert (s0 ≠ k) as Hne.
    { intros Heq. apply Ha. rewrite <- Heq. apply (c_started s H). rewrite Hp.
      right; left. apply list_elem_of_here. }
    unfold executeJobCatch.
    destruct (buildFfmpegArgs _ _);
      [|apply processQueue_neverStarted;
        by eapply neverStarted_update; [exact Hn|reflexivity|..]].
    destruct (binaryExists env); simpl;
      [|apply processQueue_neverStarted;
        by eapply neverStarted_update; [exact Hn|reflexivity|..]].
    destruct (spawnThrows env);
      [apply processQueue_neverStarted|];
      by eapply neverStarted_update; [exact Hn|reflexivity|..].
Qed.

Lemma uuids_app turns turns' : uuids (turns ++ turns') = uuids turns ++ uuids turns'.
Proof. apply omap_app. Qed.

Lemma exec_neverStarted sys turns turns' k :
  NoDup (uuids (turns ++ turns')) → k ∈ uuids turns →
  neverStarted k (exec sys turns init) →
  neverStarted k (exec sys (turns ++ turns') init).
Proof.
  intros Hnd Hk Hn. induction turns' as [|turn turns' IH] using rev_ind.
  { by rewrite app_nil_r. }
  rewrite app_assoc in Hnd |- *.
  rewrite uuids_snoc in Hnd. apply NoDup_app in Hnd as (Hnd & Hfresh & _).
  rewrite exec_snoc. apply step_neverStarted; [by apply exec_consistent| |by apply IH].
  intros u Hu ->. apply (Hfresh k); [|done].
  rewrite uuids_app, elem_of_app. by left.
Qed.

(** ** Processes belong to started jobs *)

Lemma processOwned_update s s' j job :
  processOwned s →
  activeJobs s' = <[j:=job]> (activeJobs s) →
  (∀ k, k ∈ admitted s → k ∈ admitted s') →
  (Job.process job ≠ None → j ∈ admitted s') →
  processOwned s'.
Proof.
  intros Hp Hjobs Hadm Hj k job'. rewrite Hjobs, lookup_insert. case_decide as Hk.
  - intros [= <-]. by subst.
  - intros Hl Hpr. by eapply Hadm, Hp.
Qed.

(** The job stored has the process of the job it replaces. *)
Lemma processOwned_touch s s' j job job' :
  processOwned s →
  activeJobs s !! j = Some job →
  activeJobs s' = <[j:=job']> (activeJobs s) →
  Job.process job' = Job.process job →
  (∀ k, k ∈ admitted s → k ∈ admitted s') →
  processOwned s'.
Proof.
  intros Hp Hjob Hjobs Hpr Hadm.
  eapply processOwned_update; [exact Hp|exact Hjobs|exact Hadm|].
  rewrite Hpr. intros Hne. by eapply Hadm, Hp.
Qed.

Lemma processQueueFrom_processOwned sys now queue s :
  processOwned s → processOwned (processQueueFrom sys now queue s).
Proof.
  revert s. induction queue as [|jobId queue IH]; intros s Hp; simpl; [done|].
  destruct (_ <? _); [|done].
  destruct (activeJobs s !! jobId) as [job|] eqn:Hjob; [|by apply IH].
  case_decide; [|by apply IH].
  apply IH. unfold executeJob. simpl. rewrite Hjob.
  eapply processOwned_update; [exact Hp|reflexivity|..]; simpl.
  - intros k Hk. apply elem_of_app. by left.
  - intros _. apply elem_of_app. right. apply list_elem_of_here.
Qed.

Lemma processQueue_processOwned sys now s :
  processOwned s → processOwned (processQueue sys now s).
Proof. apply processQueueFrom_processOwned. Qed.

Lemma step_processOwned sys s turn :
  consistent s → processOwned s → processOwned (step sys s turn).
Proof.
  intros H Hp. destruct turn as [now op]. unfold step.
  destruct op, (pending s) eqn:Hpend; try done.
  - unfold startJob. destruct (inputExists env); simpl; [|done].
    destruct (mkdirThrows env); simpl; [done|].
    apply processQueue_processOwned.
    eapply processOwned_update; [exact Hp|reflexivity|..]; simpl; done.
  - unfold cancelJob. destruct (activeJobs s !! jobId) as [job|] eqn:Hjob; simpl; [|done].
    apply processQueue_processOwned.
    eapply processOwned_touch; [exact Hp|exact Hjob|reflexivity|..]; simpl; done.
  - unfold pauseJob. destruct (activeJobs s !! jobId) as [job|] eqn:Hjob; simpl; [|done].
    destruct (Job.status job), (Job.process job) eqn:Hpr; simpl; try done.
    eapply processOwned_touch; [exact Hp|exact Hjob|reflexivity|..]; simpl; done.
  - unfold resumeJob. destruct (activeJobs s !! jobId) as [job|] eqn:Hjob; simpl; [|done].
    destruct (Job.status job), (Job.process job) eqn:Hpr; simpl; try done.
    eapply processOwned_touch; [exact Hp|exact Hjob|reflexivity|..]; simpl; done.
  - intros k job. simpl. intros [Hk _]%map_lookup_filter_Some. by apply Hp.
  - unfold onData. destruct (children s !! h) as [c|]; [|done].
    unfold parseProgress.
    change (activeJobs (withChildren _ s)) with (activeJobs s).
    destruct (activeJobs s !! Child.jobId c) as [job|] eqn:Hjob; [|done].
    eapply processOwned_touch; [exact Hp|exact Hjob|reflexivity|..]; simpl; [|done].
    by destruct (_ ≫= _).
  - unfold onClose. destruct (children s !! h) as [c|]; [|done].
    destruct (activeJobs s !! Child.jobId c) as [job|] eqn:Hjob; [|done].
    case_decide; destruct inputStat; try apply processQueue_processOwned;
      (eapply processOwned_touch; [exact Hp|exact Hjob|reflexivity|..]; simpl;
       [by destruct outputStat|done]).
  - unfold onError. destruct (children s !! h) as [c|]; [|done].
    destruct (activeJobs s !! Child.jobId c) as [job|] eqn:Hjob; [|done].
    apply processQueue_processOwned.
    eapply processOwned_touch; [exact Hp|exact Hjob|reflexivity|..]; simpl; done.
  - unfold executeJobResume. by rewrite Hpend.
  - unfold executeJobResume. rewrite Hpend. simpl.
    destruct (activeJobs s !! s0) as [job|] eqn:Hjob; [|done].
    unfold executeJobCatch.
    destruct (buildFfmpegArgs _ _);
      [|apply processQueue_processOwned;
        eapply processOwned_touch; [exact Hp|exact Hjob|reflexivity|..]; simpl; done].
    destruct (binaryExists env); simpl;
      [|apply processQueue_processOwned;
        eapply processOwned_touch; [exact Hp|exact Hjob|reflexivity|..]; simpl; done].
    destruct (spawnThrows env);
      [apply processQueue_processOwned;
        eapply processOwned_touch; [exact Hp|exact Hjob|reflexivity|..]; simpl; done|].
    eapply processOwned_update; [exact Hp|reflexivity|..]; simpl; [done|].
    intros _. apply (c_started s H). rewrite Hpend. right; left. apply list_elem_of_here.
Qed.

Lemma exec_processOwned sys turns :
  NoDup (uuids turns) → processOwned (exec sys turns init).
Proof.
  induction turns as [|turn turns IH] using rev_ind; intros Hnd.
  { intros k job. simpl. by rewrite lookup_empty. }
  pose proof Hnd as Hnd'. rewrite uuids_snoc in Hnd'. apply NoDup_app in Hnd' as (Hnd' & _).
  rewrite exec_snoc. apply step_processOwned; [by apply exec_consistent|by apply IH].
Qed.

(** X4. A job cancelled while it waits is never started. In an execution in
    which [uuidv4] never repeats an id, when [cancelJob] runs on a
    waiting job, the job is recorded as cancelled, no signal is sent,
    one completion event, a failure, is emitted and nothing is written
    to the history; and whatever happens afterwards, the job is never
    set running, never queued again, never listed as running or
    suspended, no child is ever spawned for it, and its status stays
    cancelled for as long as it is in the registry. *)
Theorem cancelJob_waiting
    (sys : Sys) (turns turns' : list (Z * Op)) (now : Z) (jobId : string) (job : Job.t) :
  NoDup (uuids (turns ++ turns')) →
  let s := exec sys turns init in
  pending s = [] →
  activeJobs s !! jobId = Some job → Job.status job = waiting →
  let s' := exec sys (turns ++ [(now, CancelJob jobId)]) init in
  let s'' := exec sys (turns ++ (now, CancelJob jobId) :: turns') init in
  activeJobs s' !! jobId = Some (Job.setStatus cancelled job) ∧
  signals s' = signals s ∧
  emitted s' = emitted s ++ [Completed jobId false (Some "Job cancelled")] ∧
  history s' = history s ∧
  (jobId ∉ admitted s'') ∧ (jobId ∉ jobQueue s'') ∧ (jobId ∉ runningJobs s'') ∧
  (jobId ∉ pending s'') ∧ (jobId ∉ Child.jobId <$> children s'') ∧
  (∀ job', activeJobs s'' !! jobId = Some job' → Job.status job' = cancelled).
Proof.
  intros Hnd s Hp Hjob Hw s' s''.
  assert (NoDup (uuids turns)) as Hnd0.
  { rewrite uuids_app in Hnd. by apply NoDup_app in Hnd as (? & _). }
  pose proof (exec_consistent sys turns Hnd0) as H. fold s in H.
  assert (queuedAll s) as Hall.
  { apply exec_queuedAll. intros k j. simpl. by rewrite lookup_empty. }
  assert (jobId ∈ jobQueue s) as Hq by (by eapply Hall).
  pose proof (consistent_NoDup s H) as (_ & Hdisj & Hqn)%NoDup_app.
  assert (jobId ∉ admitted s) as Ha by (intros Hin; by apply (Hdisj jobId)).
  assert (Job.process job = None) as Hpr.
  { destruct (Job.process job) eqn:Hpr; [|done]. destruct Ha.
    apply (exec_processOwned sys turns Hnd0 jobId job Hjob). by rewrite Hpr. }
  assert (jobId ∈ uuids turns) as Hu.
  { apply (exec_submitted sys). fold s. eapply elem_of_sublist; [|apply (c_fifo s H)].
    apply elem_of_app. by right. }
  assert (s' = settle s (cancelJob sys now jobId s)) as Hs'.
  { unfold s'. rewrite exec_snoc. fold s. unfold step. by rewrite Hp. }
  unfold cancelJob in Hs'. rewrite Hjob in Hs'. simpl in Hs'.
  match type of Hs' with _ = processQueue sys now ?t =>
    set (s1 := t) in Hs';
    destruct (processQueue_sameOutputs sys now s1) as (He & Hh & Hsg & _)
  end.
  assert (jobId ∉ jobQueue s1) as Hq1 by (by apply not_elem_of_spliceOut).
  assert (neverStarted jobId s') as Hn.
  { rewrite Hs'. apply processQueue_neverStarted. split_and!; [done..|].
    intros job'. simpl. rewrite lookup_insert_eq. by intros [= <-]. }
  assert (NoDup (uuids ((turns ++ [(now, CancelJob jobId)]) ++ turns'))) as Hnd'.
  { rewrite !uuids_app in *. simpl. by rewrite app_nil_r. }
  assert (neverStarted jobId s'') as (Ha'' & Hq'' & Hc'').
  { unfold s''. rewrite (cons_middle _ turns turns'), app_assoc.
    apply exec_neverStarted; [done| |done].
    rewrite uuids_app, elem_of_app. by left. }
  assert (consistent s'') as H''.
  { unfold s''. rewrite (cons_middle _ turns turns'), app_assoc.
    by apply exec_consistent. }
  split_and!; try done.
  - rewrite Hs'. apply processQueue_keeps; [apply lookup_insert_eq|done].
  - rewrite Hs', Hsg. simpl. rewrite Hpr. apply app_nil_r.
  - by rewrite Hs', He.
  - by rewrite Hs', Hh.
  - intros Hin. apply Ha'', (c_started s'' H''). auto.
  - intros Hin. apply Ha'', (c_started s'' H''). auto.
  - intros Hin. apply Ha'', (c_started s'' H''). auto.
Qed.

Lemma cancelJob_waiting_witness :
  let later := [(5, OnClose 0 (Some 0) (Some 40) (Some 100)); (6, submit "d"); (6, spawned)]%Z in
  let s' := exec sampleSys (queuedRun ++ [(4%Z, CancelJob "c")]) init in
  let s'' := exec sampleSys (queuedRun ++ (4%Z, CancelJob "c") :: later) init in
  activeJobs s' !! "c" = Some (Job.setStatus cancelled queuedJobC) ∧
  (∀ job', activeJobs s'' !! "c" = Some job' → Job.status job' = cancelled).
Proof.
  intros later s' s''.
  assert (NoDup (uuids (queuedRun ++ later))) as Hnd
    by (apply (bool_decide_eq_true_1 (NoDup (uuids (queuedRun ++ later))));
        vm_compute; reflexivity).
  assert (pending (exec sampleSys queuedRun init) = []) as Hp by (vm_compute; reflexivity).
  assert (activeJobs (exec sampleSys queuedRun init) !! "c" = Some queuedJobC) as Hjob
    by (vm_compute; reflexivity).
  destruct (cancelJob_waiting sampleSys queuedRun later 4 "c" queuedJobC Hnd Hp Hjob eq_refl)
    as (Hs & _ & _ & _ & _ & _ & _ & _ & _ & Hc).
  split; [exact Hs|exact Hc].
Defined.

(** X6. [clearCompletedJobs] removes exactly the completed, failed and
    cancelled jobs, keeps every other job as it is, touches neither the
    queue nor the running list, and does nothing when repeated. *)
Theorem clearCompletedJobs_spec (s : State) :
  (∀ k, activeJobs (clearCompletedJobs s) !! k =
        match activeJobs s !! k with
        | Some job => if terminal (Job.status job) then None else Some job
        | None => None
        end) ∧
  jobQueue (clearCompletedJobs s) = jobQueue s ∧
  runningJobs (clearCompletedJobs s) = runningJobs s ∧
  clearCompletedJobs (clearCompletedJobs s) = clearCompletedJobs s.
Proof.
  assert (∀ m : gmap string Job.t, ∀ k,
            filter (λ kv, terminal (Job.status kv.2) = false) m !! k =
            match m !! k with
            | Some job => if terminal (Job.status job) then None else Some job
            | None => None
            end) as Hlook.
  { intros m k. destruct (m !! k) as [job|] eqn:Hk.
    - destruct (terminal (Job.status job)) eqn:Ht.
      + apply map_lookup_filter_None. right. intros j Hj. simpl.
        assert (j = job) as -> by congruence. by rewrite Ht.
      + by apply map_lookup_filter_Some.
    - apply map_lookup_filter_None. by left. }
  split_and!; try done.
  - intros k. apply Hlook.
  - unfold clearCompletedJobs, withJobs. simpl. f_equal.
    apply map_eq. intros k. rewrite !Hlook.
    destruct (activeJobs s !! k) as [job|]; [|done].
    destruct (terminal (Job.status job)) eqn:Ht; [done|]. by rewrite Ht.
Qed.

(** X7. When a resumed [executeJob] finds no encoder binary, no child is
    spawned: the job is recorded as failed with the path in its error, a
    completion event carries that error, nothing is written to the
    history, and the job's slot is free again. *)
Theorem executeJob_binary_missing
    (sys : Sys) (turns : list (Z * Op)) (now : Z) (env : SpawnEnv)
    (jobId : string) (rest : list string) (job : Job.t) :
  NoDup (uuids turns) →
  let s := exec sys turns init in
  pending s = jobId :: rest →
  activeJobs s !! jobId = Some job →
  binaryExists env = false →
  let s' := executeJobResume sys now env s in
  let message := "FFmpeg binary not found at: " +:+ ffmpegPath sys in
  activeJobs s' !! jobId = Some (Job.setError message (Job.setStatus failed job)) ∧
  emitted s' = emitted s ++ [Completed jobId false (Some message)] ∧
  children s' = children s ∧ history s' = history s ∧
  jobId ∉ runningJobs s'.
Proof.
  intros Hnd s Hp Hjob Hbin s' message. subst s'.
  pose proof (exec_consistent sys turns Hnd) as H. fold s in H.
  assert (jobId ∉ jobQueue s) as Hq.
  { apply admitted_not_queued; [done|]. apply (c_started s H).
    rewrite Hp. right; left. apply list_elem_of_here. }
  unfold executeJobResume. rewrite Hp.
  change (activeJobs (withPending _ s)) with (activeJobs s). rewrite Hjob.
  destruct (buildFfmpegArgs_input (win32 sys) (Job.config job)) as [args ->].
  rewrite Hbin. simpl negb. cbv iota. unfold executeJobCatch.
  match goal with |- context [processQueue sys now ?t] =>
    set (s1 := t);
    destruct (processQueue_sameOutputs sys now s1) as (He & Hh & _ & _ & Hc & _)
  end.
  split_and!.
  - apply processQueue_keeps; [apply lookup_insert_eq|done].
  - by rewrite He.
  - by rewrite Hc.
  - by rewrite Hh.
  - intros [Hin|Hin]%processQueueFrom_runningJobs; [|done].
    by apply not_elem_of_without in Hin.
Qed.

Lemma executeJob_binary_missing_witness :
  let s := exec sampleSys submittedRun init in
  history (executeJobResume sampleSys 1 (Build_SpawnEnv false None) s) = history s.
Proof.
  intros s.
  assert (NoDup (uuids submittedRun)) as Hnd
    by (apply (bool_decide_eq_true_1 (NoDup (uuids submittedRun)));
        vm_compute; reflexivity).
  assert (pending s = ["a"]) as Hp by (vm_compute; reflexivity).
  assert (activeJobs s !! "a" = Some submittedJob) as Hjob by (vm_compute; reflexivity).
  apply (executeJob_binary_missing sampleSys submittedRun 1
           (Build_SpawnEnv false None) "a" [] submittedJob Hnd Hp Hjob eq_refl).
Defined.

(** ** The range of the progress *)

Lemma isDigit_digitVal a : Js.isDigit a = true → (0 ≤ Js.digitVal a ≤ 9)%Z.
Proof.
  unfold Js.isDigit, Js.digitVal. intros [H1 H2]%andb_prop.
  apply Nat.leb_le in H1, H2. lia.
Qed.

(** Two digits read by [parseInt] are a number from 0 to 99. *)
Lemma parseInt_two_digits a b :
  Js.isDigit a = true → Js.isDigit b = true →
  ∃ n, Js.parseInt (String a (String b "")) = Some n ∧ (0 ≤ n)%Z.
Proof.
  intros Ha Hb.
  destruct a as [[] [] [] [] [] [] [] []]; try (vm_compute in Ha; discriminate Ha);
    destruct b as [[] [] [] [] [] [] [] []]; try (vm_compute in Hb; discriminate Hb);
    vm_compute; eexists; (split; [reflexivity|discriminate]).
Qed.

(** Seconds and hundredths read by [parseFloat] are not negative. *)
Lemma parseFloat_seconds a b c d :
  Js.isDigit a = true → Js.isDigit b = true →
  Js.isDigit c = true → Js.isDigit d = true →
  ∃ q, parseFloat (String a (String b (String "." (String c (String d ""))))) = Some q
       ∧ (0 <= q)%Q.
Proof.
  intros Ha Hb Hc Hd. unfold parseFloat. simpl.
  rewrite Ha, Hb. simpl. unfold Js.decVal. rewrite Ha, Hb, Hc, Hd. simpl.
  rewrite Hc, Hd. simpl. eexists. split; [reflexivity|].
  pose proof (isDigit_digitVal a Ha). pose proof (isDigit_digitVal b Hb).
  pose proof (isDigit_digitVal c Hc). pose proof (isDigit_digitVal d Hd).
  apply Qle_trans with (inject_Z 0 + inject_Z 0 / inject_Z 100)%Q; [done|].
  apply Qplus_le_compat.
  - rewrite <- Zle_Qle. lia.
  - apply Qmult_le_compat_r; [|done]. rewrite <- Zle_Qle. lia.
Qed.

Lemma search_found re l res :
  Regex.search re l = Some res → ∃ t, Regex.matchAt re t = Some res.
Proof.
  induction l as [|a l IH]; simpl.
  - destruct (Regex.matchAt re []) eqn:Hm; [|done]. intros [= <-]. eauto.
  - destruct (Regex.matchAt re (a :: l)) eqn:Hm; [intros [= <-]; eauto|apply IH].
Qed.

Lemma run_One p its l segs r :
  Regex.run (Regex.One p :: its) l = Some (segs, r) →
  ∃ a l' segs', l = a :: l' ∧ p a = true ∧ segs = [a] :: segs' ∧
                Regex.run its l' = Some (segs', r).
Proof.
  simpl. destruct l as [|a l]; [done|]. destruct (p a) eqn:Hp; [|done].
  destruct (Regex.run its l) as [[segs' r']|] eqn:Hr; [|done].
  intros [= <- <-]. by exists a, l, segs'.
Qed.

(** The groups of a time match: two digits, two digits, and two digits,
    a dot and two digits. *)
Lemma time_groups stderr g :
  Regex.exec Regex.time 3 stderr = Some g →
  ∃ a1 a2 a3 a4 a5 a6 a7 a8,
    Js.isDigit a1 = true ∧ Js.isDigit a2 = true ∧ Js.isDigit a3 = true ∧
    Js.isDigit a4 = true ∧ Js.isDigit a5 = true ∧ Js.isDigit a6 = true ∧
    Js.isDigit a7 = true ∧ Js.isDigit a8 = true ∧
    g = [String a1 (String a2 ""); String a3 (String a4 "");
         String a5 (String a6 (String "." (String a7 (String a8 ""))))].
Proof.
  unfold Regex.exec.
  destruct (Regex.search _ _) as [[segs r]|] eqn:Hs; [|done]. intros [= <-].
  apply search_found in Hs as [t Hm]. unfold Regex.matchAt in Hm.
  destruct (Regex.strip _ _) as [t0|]; [|done].
  change (Regex.run [Regex.One Js.isDigit; Regex.One Js.isDigit; Regex.One (Regex.lit ":");
                     Regex.One Js.isDigit; Regex.One Js.isDigit; Regex.One (Regex.lit ":");
                     Regex.One Js.isDigit; Regex.One Js.isDigit; Regex.One (Regex.lit ".");
                     Regex.One Js.isDigit; Regex.One Js.isDigit] t0 = Some (segs, r)) in Hm.
  apply run_One in Hm as (a1 & ? & ? & _ & H1 & -> & Hm).
  apply run_One in Hm as (a2 & ? & ? & _ & H2 & -> & Hm).
  apply run_One in Hm as (c1 & ? & ? & _ & _ & -> & Hm).
  apply run_One in Hm as (a3 & ? & ? & _ & H3 & -> & Hm).
  apply run_One in Hm as (a4 & ? & ? & _ & H4 & -> & Hm).
  apply run_One in Hm as (c2 & ? & ? & _ & _ & -> & Hm).
  apply run_One in Hm as (a5 & ? & ? & _ & H5 & -> & Hm).
  apply run_One in Hm as (a6 & ? & ? & _ & H6 & -> & Hm).
  apply run_One in Hm as (c3 & ? & ? & _ & Hdot & -> & Hm).
  apply run_One in Hm as (a7 & ? & ? & _ & H7 & -> & Hm).
  apply run_One in Hm as (a8 & ? & ? & _ & H8 & -> & Hm).
  simpl in Hm. injection Hm as <- _.
  apply Ascii.eqb_eq in Hdot as <-.
  exists a1, a2, a3, a4, a5, a6, a7, a8. by split_and!.
Qed.

(** The progress computed from a time match is a number from 0 to 100. *)
Lemma progressOf_range stderr g :
  Regex.exec Regex.time 3 stderr = Some g →
  ∃ p, progressOf g = Some p ∧ (0 <= p)%Q ∧ (p <= 100)%Q.
Proof.
  intros (a1 & a2 & a3 & a4 & a5 & a6 & a7 & a8 &
          H1 & H2 & H3 & H4 & H5 & H6 & H7 & H8 & ->)%time_groups.
  unfold progressOf, currentTime, grp. simpl.
  destruct (parseInt_two_digits a1 a2 H1 H2) as (hh & -> & Hh).
  destruct (parseInt_two_digits a3 a4 H3 H4) as (mm & -> & Hmn).
  destruct (parseFloat_seconds a5 a6 a7 a8 H5 H6 H7 H8) as (ss & -> & Hss).
  simpl. eexists. split; [reflexivity|]. split; [|apply Q.le_min_l].
  apply Q.min_glb; [done|].
  assert (0 <= inject_Z hh * 3600 + inject_Z mm * 60 + ss)%Q as Ht.
  { rewrite Zle_Qle in Hh, Hmn.
    apply Qle_trans with (0 * 3600 + 0 * 60 + 0)%Q; [done|].
    repeat apply Qplus_le_compat; try done; by apply Qmult_le_compat_r. }
  apply Qle_trans with (0 / (300 # 1) * (100 # 1))%Q; [done|].
  apply Qmult_le_compat_r; [|done]. by apply Qmult_le_compat_r.
Qed.

Lemma progressOk_update s s' jobId job es :
  progressOk s →
  activeJobs s' = <[jobId:=job]> (activeJobs s) →
  inRange (Job.progress job) →
  emitted s' = emitted s ++ es →
  (∀ p, Progress p ∈ es → inRange (JobProgress.progress p)) →
  progressOk s'.
Proof.
  intros [Hj He] Hjobs Hjob Hem Hes. split.
  - intros k j. rewrite Hjobs, lookup_insert. case_decide; [by intros [= <-]|apply Hj].
  - intros p. rewrite Hem, elem_of_app. intros [?|?]; auto.
Qed.

Lemma processQueueFrom_progress sys now queue s k job' :
  activeJobs (processQueueFrom sys now queue s) !! k = Some job' →
  ∃ job, activeJobs s !! k = Some job ∧ Job.progress job' = Job.progress job.
Proof.
  revert s. induction queue as [|jobId queue IH]; intros s; simpl; [by eauto|].
  destruct (_ <? _); [|by eauto].
  destruct (activeJobs s !! jobId) as [j|] eqn:Hj; [|intros H%IH; exact H].
  case_decide; [|intros H'%IH; exact H'].
  intros (job & Hk & Hp)%IH. revert Hk. unfold executeJob. simpl. rewrite Hj. simpl.
  rewrite lookup_insert. case_decide as Hk; [|by eauto].
  intros [= <-]. subst. by eauto.
Qed.

Lemma processQueue_progressOk sys now s :
  progressOk s → progressOk (processQueue sys now s).
Proof.
  intros [Hj He]. split.
  - intros k job' (job & Hk & ->)%processQueueFrom_progress. by eapply Hj.
  - destruct (processQueue_sameOutputs sys now s) as (-> & _). apply He.
Qed.

Lemma step_progressOk sys s turn : progressOk s → progressOk (step sys s turn).
Proof.
  intros Hok. pose proof Hok as [Hj He].
  assert (inRange 0) as H0 by (by split).
  assert (inRange 100) as H100 by (by split).
  destruct turn as [now op]. unfold step.
  destruct op, (pending s) eqn:Hp; try exact Hok.
  - unfold startJob. destruct (inputExists env); simpl; [|done].
    destruct (mkdirThrows env); simpl; [done|].
    apply processQueue_progressOk.
    eapply (progressOk_update _ _ _ _ []); [exact Hok|reflexivity|done|..].
    + simpl. by rewrite app_nil_r.
    + by intros p ?%elem_of_nil.
  - unfold cancelJob. destruct (activeJobs s !! jobId) as [job|] eqn:Hjob; simpl; [|done].
    apply processQueue_progressOk.
    eapply progressOk_update; [exact Hok|reflexivity|..]; simpl; [by eapply Hj|done|].
    intros p Hin%list_elem_of_singleton. discriminate Hin.
  - unfold pauseJob. destruct (activeJobs s !! jobId) as [job|] eqn:Hjob; simpl; [|done].
    destruct (Job.status job), (Job.process job); simpl; try done.
    eapply (progressOk_update _ _ _ _ []); [exact Hok|reflexivity|..]; simpl.
    + by eapply Hj.
    + by rewrite app_nil_r.
    + by intros p ?%elem_of_nil.
  - unfold resumeJob. destruct (activeJobs s !! jobId) as [job|] eqn:Hjob; simpl; [|done].
    destruct (Job.status job), (Job.process job); simpl; try done.
    eapply (progressOk_update _ _ _ _ []); [exact Hok|reflexivity|..]; simpl.
    + by eapply Hj.
    + by rewrite app_nil_r.
    + by intros p ?%elem_of_nil.
  - split; [|done]. intros k job. simpl. intros [Hk _]%map_lookup_filter_Some.
    by eapply Hj.
  - split; [|done]. intros k job Hk. simpl in Hk. by rewrite lookup_empty in Hk.
  - unfold onData. destruct (children s !! h) as [c|]; [|done].
    unfold parseProgress.
    change (activeJobs (withChildren _ s)) with (activeJobs s).
    destruct (activeJobs s !! Child.jobId c) as [job|] eqn:Hjob; [|done].
    set (m := matches _).
    assert (inRange (Job.progress
              match timeMatch m ≫= progressOf with
              | Some progress => Job.setProgress progress job
              | None => job
              end)) as Hnew.
    { destruct (timeMatch m) as [g|] eqn:Hg; simpl; [|by eapply Hj].
      destruct (progressOf_range _ _ Hg) as (p & -> & Hp0 & Hp1). by split. }
    eapply progressOk_update; [exact Hok|reflexivity|exact Hnew|reflexivity|].
    intros p Hin%list_elem_of_singleton. by injection Hin as ->.
  - unfold onClose. destruct (children s !! h) as [c|]; [|done].
    destruct (activeJobs s !! Child.jobId c) as [job|] eqn:Hjob; [|done].
    case_decide; destruct inputStat; try apply processQueue_progressOk.
    + eapply (progressOk_update _ _ _ _ [_; _]); [exact Hok|reflexivity|..]; simpl.
      * by destruct outputStat.
      * by rewrite <- app_assoc.
      * intros p [?|[?|?%elem_of_nil]%elem_of_cons]%elem_of_cons; done.
    + eapply (progressOk_update _ _ _ _ []); [exact Hok|reflexivity|..]; simpl.
      * by destruct outputStat.
      * by rewrite app_nil_r.
      * by intros p ?%elem_of_nil.
    + eapply (progressOk_update _ _ _ _ [_; _]); [exact Hok|reflexivity|..]; simpl.
      * by eapply Hj.
      * by rewrite <- app_assoc.
      * intros p [?|[?|?%elem_of_nil]%elem_of_cons]%elem_of_cons; done.
    + eapply (progressOk_update _ _ _ _ []); [exact Hok|reflexivity|..]; simpl.
      * by eapply Hj.
      * by rewrite app_nil_r.
      * by intros p ?%elem_of_nil.
  - unfold onError. destruct (children s !! h) as [c|]; [|done].
    destruct (activeJobs s !! Child.jobId c) as [job|] eqn:Hjob; [|done].
    apply processQueue_progressOk.
    eapply progressOk_update; [exact Hok|reflexivity|..]; simpl; [by eapply Hj|done|].
    intros p Hin%list_elem_of_singleton. discriminate Hin.
  - unfold executeJobResume. by rewrite Hp.
  - unfold executeJobResume. rewrite Hp. simpl.
    destruct (activeJobs s !! s0) as [job|] eqn:Hjob; [|done].
    assert (∀ message, progressOk (executeJobCatch sys now s0 job message
              (withPending (λ _, l) s))) as Hcatch.
    { intros message. apply processQueue_progressOk.
      eapply progressOk_update; [exact Hok|reflexivity|..]; simpl; [by eapply Hj|done|].
      intros p Hin%list_elem_of_singleton. discriminate Hin. }
    destruct (buildFfmpegArgs _ _); [|done].
    destruct (binaryExists env); simpl; [|done].
    destruct (spawnThrows env); [done|].
    eapply (progressOk_update _ _ _ _ []); [exact Hok|reflexivity|..]; simpl.
    + by eapply Hj.
    + by rewrite app_nil_r.
    + by intros p ?%elem_of_nil.
Qed.

(** X8. Whatever the children write, the progress stays within bounds: in
    every execution, every job of the registry and every progress event
    emitted carries a progress from 0 to 100. *)
Theorem progress_within_bounds (sys : Sys) (turns : list (Z * Op)) :
  let s := exec sys turns init in
  (∀ k job, activeJobs s !! k = Some job →
     (0 <= Job.progress job)%Q ∧ (Job.progress job <= 100)%Q) ∧
  (∀ p, Progress p ∈ emitted s →
     (0 <= JobProgress.progress p)%Q ∧ (JobProgress.progress p <= 100)%Q).
Proof.
  assert (∀ s, progressOk s → progressOk (exec sys turns s)) as Hexec.
  { induction turns as [|turn turns IH]; intros s Hs; [done|].
    apply IH. by apply step_progressOk. }
  apply Hexec. split.
  - intros k job Hk. simpl in Hk. by rewrite lookup_empty in Hk.
  - by intros p ?%elem_of_nil.
Qed.

Lemma progress_within_bounds_witness :
  Forall (λ e, match e with
               | Progress p => (JobProgress.progress p <= 100)%Q
               | _ => True
               end)
         (emitted (exec sampleSys recordedRun init)).
Proof.
  apply Forall_forall. intros e He. destruct e; try exact I.
  by apply (progress_within_bounds sampleSys recordedRun).
Defined.

(** ** The history store *)

Lemma addItem_items id now item m :
  HistoryManager.items (HistoryManager.addItem id now item m) =
  take (HistoryManager.maxItems m) (HistoryItem.mk id now item :: HistoryManager.items m).
Proof.
  unfold HistoryManager.addItem. simpl.
  destruct (Nat.ltb_spec (HistoryManager.maxItems m) (S (length (HistoryManager.items m))));
    [done|].
  rewrite take_ge; [done|]. simpl. lia.
Qed.

(** X13. The store keeps the newest items, newest first: after any number of
    additions to an empty store, it holds the last [maxItems] of them in
    reverse order of addition. *)
Theorem addItem_keeps_newest (n : nat) (adds : list (string * Z * History.t)) :
  HistoryManager.items
    (foldl (λ m a, HistoryManager.addItem a.1.1 a.1.2 a.2 m) (HistoryManager.mk [] n) adds)
  = take n (reverse ((λ a, HistoryItem.mk a.1.1 a.1.2 a.2) <$> adds)) ∧
  HistoryManager.maxItems
    (foldl (λ m a, HistoryManager.addItem a.1.1 a.1.2 a.2 m) (HistoryManager.mk [] n) adds)
  = n.
Proof.
  induction adds as [|a adds [IH1 IH2]] using rev_ind.
  - by destruct n.
  - rewrite foldl_snoc. cbv beta. split; [|exact IH2].
    rewrite addItem_items, IH1, IH2, fmap_app, reverse_app. simpl.
    destruct n as [|n]; [done|]. simpl. f_equal.
    rewrite take_take. f_equal. lia.
Qed.

(** X14. No operation lets the store outgrow its bound: from a store within
    its bound, as a fresh one is, additions, removals, clearing and
    changes of the bound keep at most [maxItems] items. *)
Theorem history_bounded (m0 : HistoryManager.t) (calls : list HistoryManager.Call) :
  length (HistoryManager.items m0) ≤ HistoryManager.maxItems m0 →
  let m := foldl HistoryManager.call m0 calls in
  length (HistoryManager.items m) ≤ HistoryManager.maxItems m.
Proof.
  intros Hm0.
  assert (∀ m c, length (HistoryManager.items m) ≤ HistoryManager.maxItems m →
            length (HistoryManager.items (HistoryManager.call m c))
            ≤ HistoryManager.maxItems (HistoryManager.call m c)) as Hstep.
  { intros m [id now item|id| |n] Hm; cbn [HistoryManager.call].
    - rewrite addItem_items, length_take. unfold HistoryManager.addItem. simpl. lia.
    - unfold HistoryManager.removeHistoryItem.
      destruct (_ =? _); simpl; [done|].
      etrans; [apply length_filter|done].
    - simpl. lia.
    - unfold HistoryManager.setMaxItems. destruct (n <? 1); [done|]. simpl.
      destruct (Nat.ltb_spec n (length (HistoryManager.items m)));
        [rewrite length_take|]; lia. }
  induction calls as [|c calls IH] using rev_ind; simpl; [lia|].
  rewrite foldl_snoc. apply Hstep, IH.
Qed.

Lemma history_bounded_witness :
  length (HistoryManager.items
            (foldl HistoryManager.call HistoryManager.create
               [HistoryManager.SetMaxItems 1;
                HistoryManager.AddItem "x" 1 (History.mk "in" "out" "p" 10 5 50 3 success None);
                HistoryManager.AddItem "y" 2 (History.mk "in" "out" "p" 10 5 50 3 success None)]))
  ≤ 1.
Proof.
  apply (history_bounded HistoryManager.create
           [HistoryManager.SetMaxItems 1;
            HistoryManager.AddItem "x" 1 (History.mk "in" "out" "p" 10 5 50 3 success None);
            HistoryManager.AddItem "y" 2 (History.mk "in" "out" "p" 10 5 50 3 success None)]).
  simpl. lia.
Defined.

(** X15. [getHistory] returns the newest items: a prefix of the store, of at
    most [limit] items when a positive limit is given. *)
Theorem getHistory_prefix (limit : option Z) (m : HistoryManager.t) :
  HistoryManager.getHistory limit m `prefix_of` HistoryManager.items m ∧
  match limit with
  | Some n =>
      if (0 <? n)%Z
      then length (HistoryManager.getHistory limit m)
           = Nat.min (Z.to_nat n) (length (HistoryManager.items m))
      else HistoryManager.getHistory limit m = HistoryManager.items m
  | None => HistoryManager.getHistory limit m = HistoryManager.items m
  end.
Proof.
  unfold HistoryManager.getHistory. destruct limit as [n|]; [|done].
  destruct (0 <? n)%Z; [|done].
  split; [apply prefix_take|apply length_take].
Qed.

Lemma find_none_filter id (l : list HistoryItem.t) :
  find (λ it, String.eqb (HistoryItem.id it) id) (filter (λ it, HistoryItem.id it ≠ id) l)
  = None.
Proof.
  induction l as [|it l IH]; [done|].
  rewrite filter_cons. case_decide as Hne; [|done].
  simpl. by rewrite (proj2 (String.eqb_neq _ _) Hne).
Qed.

Lemma filter_length_eq {A} (P : A → Prop) `{∀ x, Decision (P x)} (l : list A) :
  length (filter P l) = length l → filter P l = l.
Proof.
  induction l as [|x l IH]; [done|]. rewrite filter_cons.
  case_decide; simpl.
  - intros [= Hl]. by rewrite IH.
  - intros Hl. pose proof (length_filter P l). lia.
Qed.

Lemma filter_id {A} (P : A → Prop) `{∀ x, Decision (P x)} (l : list A) :
  Forall P l → filter P l = l.
Proof.
  induction 1 as [|x l Hx Hl IH]; [done|].
  rewrite filter_cons, decide_True by done. by rewrite IH.
Qed.

(** X16. [removeHistoryItem] reports whether the id was in the store; either
    way the id is not in the store afterwards, and the other items stay,
    in their order. *)
Theorem removeHistoryItem_spec (id : string) (m : HistoryManager.t) :
  let r := HistoryManager.removeHistoryItem id m in
  (r.1 = true ↔ ∃ it, it ∈ HistoryManager.items m ∧ HistoryItem.id it = id) ∧
  HistoryManager.getHistoryItem id r.2 = None ∧
  HistoryManager.items r.2 = filter (λ it, HistoryItem.id it ≠ id) (HistoryManager.items m).
Proof.
  unfold HistoryManager.removeHistoryItem, HistoryManager.getHistoryItem. simpl.
  destruct (Nat.eqb_spec (length (filter (λ it, HistoryItem.id it ≠ id)
                                     (HistoryManager.items m)))
                         (length (HistoryManager.items m))) as [Heq|Hne]; simpl.
  - apply filter_length_eq in Heq. split_and!; [|by rewrite <- Heq, find_none_filter|done].
    split; [done|]. intros (it & Hin & Hid). rewrite <- Heq in Hin.
    apply list_elem_of_filter in Hin as [Hne _]. done.
  - split_and!; [|apply find_none_filter|done].
    split; [|done]. intros _.
    destruct (decide (Exists (λ it, HistoryItem.id it = id) (HistoryManager.items m)))
      as [(it & Hin & Hid)%Exists_exists|Hno]; [by exists it|].
    exfalso. apply Hne. f_equal.
    apply Forall_Exists_neg in Hno. by apply filter_id.
Qed.

(** X17. Every item counts once in the statistics: as a success or as a
    failure. *)
Theorem getStatistics_counts (m : HistoryManager.t) :
  let st := HistoryManager.getStatistics m in
  HistoryManager.successfulJobs st + HistoryManager.failedJobs st
  = HistoryManager.totalJobs st ∧
  HistoryManager.totalJobs st = length (HistoryManager.items m).
Proof.
  simpl. split; [|done].
  induction (HistoryManager.items m) as [|it l IH]; [done|]. simpl.
  unfold HistoryManager.isSuccess, HistoryManager.isFailed in *.
  destruct (History.status (HistoryItem.item it)); simpl; lia.
Qed.

(** ** File names *)

(** X18. [sanitizeFilename] keeps the length of a name, leaves no forbidden
    character in it, changes nothing in a name that has none, and so
    changes nothing when applied twice. *)
Theorem sanitizeFilename_spec (filename : string) :
  String.length (sanitizeFilename filename) = String.length filename ∧
  Forall (λ a, forbiddenChar a = false)
         (list_ascii_of_string (sanitizeFilename filename)) ∧
  (Forall (λ a, forbiddenChar a = false) (list_ascii_of_string filename) →
   sanitizeFilename filename = filename) ∧
  sanitizeFilename (sanitizeFilename filename) = sanitizeFilename filename.
Proof.
  assert (∀ f, Forall (λ a, forbiddenChar a = false) (list_ascii_of_string f) →
               sanitizeFilename f = f) as Hclean.
  { induction f as [|a f IH]; simpl; [done|].
    intros [Ha Hf]%Forall_cons. rewrite Ha. f_equal. by apply IH. }
  assert (∀ f, Forall (λ a, forbiddenChar a = false)
                 (list_ascii_of_string (sanitizeFilename f))) as Hres.
  { induction f as [|a f IH]; simpl; [done|]. constructor; [|done].
    by destruct (forbiddenChar a) eqn:Ha. }
  split_and!.
  - induction filename as [|a f IH]; simpl; [done|]. by rewrite IH.
  - apply Hres.
  - apply Hclean.
  - apply Hclean, Hres.
Qed.

Lemma sanitizeFilename_spec_witness : sanitizeFilename "clip_01.mp4" = "clip_01.mp4".
Proof.
  destruct (sanitizeFilename_spec "clip_01.mp4") as (_ & _ & Hclean & _).
  apply Hclean. vm_compute. repeat constructor.
Defined.
